(** * kr_statute: article segmentation and cross-reference extraction

    A shallow embedding of [kr_statute.py]: the text normaliser
    [clean_text], the reference extractor [get_relation_parts] and the
    segmenter [parse_html_by_article_sections], together with the parts of
    Python's [str], [list] and [re] and of BeautifulSoup's [Tag] that they
    call.

    Python strings are sequences of Unicode code points; they are modelled
    as lists of code points.  The two character tables consulted by the
    regular expressions and by [str.strip] (which code points are white
    space, which are decimal digits) belong to the interpreter's Unicode
    database and are parameters of the development. *)

From Stdlib Require Import Ascii String.
From Stdlib Require Import Bool Arith NArith ZArith Lia List Sorted.
Import ListNotations.

Set Implicit Arguments.

(** ** Code points and strings *)

Definition char := N.
Definition pystr := list char.

(** An ASCII literal of the source as a code point sequence. *)
Definition py (s : string) : pystr := map N_of_ascii (list_ascii_of_string s).

Definition NL : char := 10%N.        (* "\n" *)
Definition SP : char := 32%N.        (* " "  *)
Definition JE : char := 0xC81C%N.    (* the syllable opening an article or paragraph number *)
Definition JO : char := 0xC870%N.    (* the syllable closing an article number *)
Definition UI : char := 0xC758%N.    (* the syllable opening a sub-article number *)
Definition HANG : char := 0xD56D%N.  (* the syllable closing a paragraph number *)

(** The circled numerals U+2460 .. U+2473. *)
Definition CIRCLED_LO : char := 0x2460%N.
Definition CIRCLED_HI : char := 0x2473%N.

Definition circled (c : char) : Prop := (CIRCLED_LO <= c <= CIRCLED_HI)%N.

(** ** Exceptions *)

Inductive exn : Type :=
| IndexError       (* list index out of range *)
| AttributeError   (* attribute access on None *)
| GroupUnset.      (* stands for the None that [group] gives for a group
                      that took no part in the match *)

Inductive result (A : Type) : Type :=
| Ok (a : A)
| Raise (e : exn).

Arguments Ok {A} a.
Arguments Raise {A} e.

Definition bind {A B} (m : result A) (f : A -> result B) : result B :=
  match m with
  | Ok a => f a
  | Raise e => Raise e
  end.

Declare Scope result_scope.
Delimit Scope result_scope with result.
Notation "x <- m ;; k" := (bind m (fun x => k))
  (at level 61, m at next level, right associativity) : result_scope.
Notation "' p <- m ;; k" := (bind m (fun x => match x with p => k end))
  (at level 61, p pattern, m at next level, right associativity) : result_scope.
Local Open Scope result_scope.

(** A [for] loop over a list, threading the variables it assigns. *)
Fixpoint for_each {A S : Type} (xs : list A) (body : A -> S -> result S)
    (st : S) : result S :=
  match xs with
  | [] => Ok st
  | x :: xs' => st' <- body x st ;; for_each xs' body st'
  end.

(** ** Python lists: indexing, slicing, [enumerate] *)

Definition len {A} (l : list A) : Z := Z.of_nat (length l).

(** [l[i]]: a negative index counts from the end; out of range raises. *)
Definition py_getitem {A} (l : list A) (i : Z) : result A :=
  let j := if (i <? 0)%Z then (i + len l)%Z else i in
  if ((0 <=? j) && (j <? len l))%Z
  then match nth_error l (Z.to_nat j) with
       | Some x => Ok x
       | None => Raise IndexError
       end
  else Raise IndexError.

(** A slice bound: negative bounds count from the end, and every bound is
    clamped to the list. *)
Definition slice_bound (n i : Z) : Z :=
  if (i <? 0)%Z then Z.max 0 (i + n) else Z.min i n.

(** [l[a:b]]; never raises. *)
Definition py_slice {A} (l : list A) (a b : Z) : list A :=
  let lo := slice_bound (len l) a in
  let hi := slice_bound (len l) b in
  firstn (Z.to_nat (hi - lo)) (skipn (Z.to_nat lo) l).

(** [l[a:]]; never raises. *)
Definition py_slice_from {A} (l : list A) (a : Z) : list A :=
  skipn (Z.to_nat (slice_bound (len l) a)) l.

Fixpoint enumerate_from {A} (i : Z) (l : list A) : list (Z * A) :=
  match l with
  | [] => []
  | x :: l' => (i, x) :: enumerate_from (i + 1) l'
  end.

Definition enumerate {A} (l : list A) : list (Z * A) := enumerate_from 0 l.

(** ** Python strings: [join], [replace], [strip] *)

Fixpoint str_join (sep : pystr) (parts : list pystr) : pystr :=
  match parts with
  | [] => []
  | [p] => p
  | p :: rest => p ++ sep ++ str_join sep rest
  end.

Fixpoint starts_with (p s : pystr) : bool :=
  match p, s with
  | [], _ => true
  | a :: p', b :: s' => (a =? b)%N && starts_with p' s'
  | _ :: _, [] => false
  end.

(** [s.replace(old, new)] for a non-empty [old] (both calls of the source
    pass a non-empty literal): the occurrences are found left to right and
    do not overlap.  The fuel is the length of the subject. *)
Fixpoint replace_from (fuel : nat) (old new s : pystr) : pystr :=
  match fuel with
  | O => s
  | S f =>
      match s with
      | [] => []
      | c :: s' =>
          if starts_with old s
          then new ++ replace_from f old new (skipn (length old) s)
          else c :: replace_from f old new s'
      end
  end.

Definition str_replace (old new s : pystr) : pystr :=
  replace_from (length s) old new s.

Fixpoint drop_while {A} (p : A -> bool) (l : list A) : list A :=
  match l with
  | [] => []
  | x :: l' => if p x then drop_while p l' else l
  end.

Fixpoint take_while {A} (p : A -> bool) (l : list A) : list A :=
  match l with
  | [] => []
  | x :: l' => if p x then x :: take_while p l' else []
  end.

(** ** The regular expressions of the source *)

Inductive cclass : Type :=
| Lit (c : char)          (* a literal character *)
| Digit                   (* \d *)
| Space                   (* \s *)
| Range (lo hi : char).   (* [lo-hi] *)

Inductive regex : Type :=
| Chr (cl : cclass)
| Bos                     (* ^ *)
| Seq (r1 r2 : regex)
| Opt (r : regex)         (* (?:r)? , greedy *)
| Plus (r : regex)        (* r+ , greedy *)
| Group (r : regex).      (* (r) , capturing group 1 *)

Declare Scope regex_scope.
Delimit Scope regex_scope with regex.
Infix "$$" := Seq (at level 60, right associativity) : regex_scope.

(** The state of a match attempt: how many characters of the subject lie
    before the current point, and the span of group 1 once it is closed. *)
Record mstate : Type := MState { mpos : nat; mgroup1 : option (nat * nat) }.

Definition advance (st : mstate) : mstate :=
  {| mpos := S (mpos st); mgroup1 := mgroup1 st |}.

Definition close_group (start : nat) (st : mstate) : mstate :=
  {| mpos := mpos st; mgroup1 := Some (start, mpos st) |}.

Definition at_pos (n : nat) : mstate := {| mpos := n; mgroup1 := None |}.

Definition accept (st : mstate) (_ : pystr) : option mstate := Some st.

(** A match object: the subject, the span of the whole match and the span
    of group 1. *)
Record Match : Type :=
  { m_string : pystr; m_start : nat; m_end : nat; m_group1 : option (nat * nat) }.

Definition substring (s : pystr) (a b : nat) : pystr := firstn (b - a) (skipn a s).

Definition group0 (m : Match) : pystr := substring (m_string m) (m_start m) (m_end m).

(** [m.group(1)] where [m] is the value of [re.match]: an attribute error
    when there was no match. *)
Definition group1 (m : option Match) : result pystr :=
  match m with
  | None => Raise AttributeError
  | Some m =>
      match m_group1 m with
      | Some (a, b) => Ok (substring (m_string m) a b)
      | None => Raise GroupUnset
      end
  end.

(** ** BeautifulSoup tags *)

(** A [<p>] tag as the segmenter sees it: the text strings below it, in
    document order (what [get_text] walks over), and the value of its [id]
    attribute when it has one. *)
Record Tag : Type := { tag_strings : list pystr; tag_id : option pystr }.

(** ** [ArticleChunk] *)

Record ArticleChunk : Type :=
  { article_id : pystr;
    start_id : pystr;
    end_id : pystr;
    content : pystr;
    paragraph_ids : list pystr;
    relation_parts : list pystr }.

(** ** The tables of one interpreter

    The white-space and decimal-digit code points of CPython 3.11 (Unicode
    14.0), as inclusive ranges; they instantiate the two parameters in the
    examples. *)

Definition in_ranges (rs : list (N * N)) (c : char) : bool :=
  existsb (fun r => (fst r <=? c) && (c <=? snd r))%N rs.

Definition whitespace_ranges : list (N * N) :=
  [(0x9, 0xD); (0x1C, 0x20); (0x85, 0x85); (0xA0, 0xA0); (0x1680, 0x1680);
   (0x2000, 0x200A); (0x2028, 0x2029); (0x202F, 0x202F); (0x205F, 0x205F);
   (0x3000, 0x3000)]%N.

Definition decimal_ranges : list (N * N) :=
  [(0x30, 0x39); (0x660, 0x669); (0x6F0, 0x6F9); (0x7C0, 0x7C9); (0x966, 0x96F);
   (0x9E6, 0x9EF); (0xA66, 0xA6F); (0xAE6, 0xAEF); (0xB66, 0xB6F); (0xBE6, 0xBEF);
   (0xC66, 0xC6F); (0xCE6, 0xCEF); (0xD66, 0xD6F); (0xDE6, 0xDEF); (0xE50, 0xE59);
   (0xED0, 0xED9); (0xF20, 0xF29); (0x1040, 0x1049); (0x1090, 0x1099);
   (0x17E0, 0x17E9); (0x1810, 0x1819); (0x1946, 0x194F); (0x19D0, 0x19D9);
   (0x1A80, 0x1A89); (0x1A90, 0x1A99); (0x1B50, 0x1B59); (0x1BB0, 0x1BB9);
   (0x1C40, 0x1C49); (0x1C50, 0x1C59); (0xA620, 0xA629); (0xA8D0, 0xA8D9);
   (0xA900, 0xA909); (0xA9D0, 0xA9D9); (0xA9F0, 0xA9F9); (0xAA50, 0xAA59);
   (0xABF0, 0xABF9); (0xFF10, 0xFF19); (0x104A0, 0x104A9); (0x10D30, 0x10D39);
   (0x11066, 0x1106F); (0x110F0, 0x110F9); (0x11136, 0x1113F); (0x111D0, 0x111D9);
   (0x112F0, 0x112F9); (0x11450, 0x11459); (0x114D0, 0x114D9); (0x11650, 0x11659);
   (0x116C0, 0x116C9); (0x11730, 0x11739); (0x118E0, 0x118E9); (0x11950, 0x11959);
   (0x11C50, 0x11C59); (0x11D50, 0x11D59); (0x11DA0, 0x11DA9); (0x16A60, 0x16A69);
   (0x16AC0, 0x16AC9); (0x16B50, 0x16B59); (0x1D7CE, 0x1D7FF); (0x1E140, 0x1E149);
   (0x1E2F0, 0x1E2F9); (0x1E950, 0x1E959); (0x1FBF0, 0x1FBF9)]%N.

Definition py_isspace : char -> bool := in_ranges whitespace_ranges.
Definition py_isdecimal : char -> bool := in_ranges decimal_ranges.

(** ** Sample documents *)

(** An article label and a paragraph label with the given digits. *)
Definition art (n : string) : pystr := JE :: py n ++ [JO].
Definition para (n : string) : pystr := JE :: py n ++ [HANG].

Definition mk_tag (strings : list pystr) (id : option pystr) : Tag :=
  {| tag_strings := strings; tag_id := id |}.

(** Two articles; the first refers to its own second paragraph; the last
    tag has no [id]. *)
Definition doc_statute : list Tag :=
  [ mk_tag [art "1" ++ py " Penalties."] (Some (py "p1"));
    mk_tag [py "Violation of " ++ art "1" ++ para "2" ++ py " incurs a fine."]
           (Some (py "p2"));
    mk_tag [art "2" ++ py " Definitions."] (Some (py "p3"));
    mk_tag [py "..."] None ].

(** An article whose label is split over two strings of the tag: the
    joined text starts with the label, the spaced text does not hold it. *)
Definition doc_split_label : list Tag :=
  [ mk_tag [JE :: py "1"; JO :: py " see " ++ art "2"] None ].

(** The same with nothing after the label. *)
Definition doc_bare_label : list Tag :=
  [ mk_tag [JE :: py "1"; [JO]] None ].

(** No article at all. *)
Definition doc_no_article : list Tag :=
  [ mk_tag [py "Preamble"] (Some (py "p0")); mk_tag [py "..."] None ].

(** A text with three references, two of them equal. *)
Definition text_three_refs : pystr :=
  art "1" ++ py " and " ++ art "2" ++ UI :: py "3" ++ para "4" ++ py ", " ++ art "1".

Section Unicode.

(** [isspace c]: the interpreter's table behind [\s] and [str.strip];
    [isdecimal c]: the table behind [\d]. *)
Variable isspace : char -> bool.
Variable isdecimal : char -> bool.

(** [s.strip()] *)
Definition str_strip (s : pystr) : pystr :=
  rev (drop_while isspace (rev (drop_while isspace s))).

Definition in_class (cl : cclass) (c : char) : bool :=
  match cl with
  | Lit a => (c =? a)%N
  | Digit => isdecimal c
  | Space => isspace c
  | Range lo hi => ((lo <=? c) && (c <=? hi))%N
  end.

(** The rounds of a greedy [r+], given the matcher [m1] of [r]: after a
    round, another one is preferred to leaving the loop, and is only tried
    when the round consumed something. *)
Fixpoint plus_rounds
    (m1 : mstate -> pystr -> (mstate -> pystr -> option mstate) -> option mstate)
    (fuel : nat) (st : mstate) (s : pystr)
    (k : mstate -> pystr -> option mstate) {struct fuel} : option mstate :=
  match fuel with
  | O => None
  | S f =>
      m1 st s (fun st1 s1 =>
        match (if Nat.ltb (length s1) (length s)
               then plus_rounds m1 f st1 s1 k else None) with
        | Some st' => Some st'
        | None => k st1 s1
        end)
  end.

(** The backtracking matcher: [rmatch r st s k] matches [r] at the front of
    the remaining subject [s] and hands the state and the rest to the
    continuation [k]; the first success in the engine's order of
    preference (greedy first) is the answer. *)
Fixpoint rmatch (r : regex) (st : mstate) (s : pystr)
    (k : mstate -> pystr -> option mstate) {struct r} : option mstate :=
  match r with
  | Chr cl =>
      match s with
      | c :: s' => if in_class cl c then k (advance st) s' else None
      | [] => None
      end
  | Bos => if Nat.eqb (mpos st) 0 then k st s else None
  | Seq r1 r2 => rmatch r1 st s (fun st1 s1 => rmatch r2 st1 s1 k)
  | Opt r1 =>
      match rmatch r1 st s k with
      | Some st' => Some st'
      | None => k st s
      end
  | Plus r1 => plus_rounds (rmatch r1) (S (length s)) st s k
  | Group r1 => rmatch r1 st s (fun st1 s1 => k (close_group (mpos st) st1) s1)
  end.

(** One attempt at offset [pos] of [subject], whose remainder is [s]. *)
Definition match_at (r : regex) (subject : pystr) (pos : nat) (s : pystr)
  : option Match :=
  match rmatch r (at_pos pos) s accept with
  | Some st => Some {| m_string := subject; m_start := pos; m_end := mpos st;
                       m_group1 := mgroup1 st |}
  | None => None
  end.

(** [re.match(r, s)] *)
Definition re_match (r : regex) (s : pystr) : option Match := match_at r s 0 s.

(** [re.compile(r).findall(s)] for a pattern without capturing groups: the
    matched substrings, scanning left to right; after a match the scan
    resumes at its end (one character further after an empty match).  The
    fuel is one more than the length of the subject. *)
Fixpoint findall_from (fuel : nat) (r : regex) (subject : pystr) (pos : nat)
    (s : pystr) : list pystr :=
  match fuel with
  | O => []
  | S f =>
      match match_at r subject pos s with
      | Some m =>
          let n := m_end m - pos in
          firstn n s ::
            match n with
            | O => match s with
                   | [] => []
                   | _ :: s' => findall_from f r subject (S pos) s'
                   end
            | _ => findall_from f r subject (m_end m) (skipn n s)
            end
      | None =>
          match s with
          | [] => []
          | _ :: s' => findall_from f r subject (S pos) s'
          end
      end
  end.

Definition findall (r : regex) (s : pystr) : list pystr :=
  findall_from (S (length s)) r s 0 s.

(** [re.sub(r, repl, s)] for a literal replacement: every match is replaced,
    the text between matches is copied. *)
Fixpoint sub_from (fuel : nat) (r : regex) (repl subject : pystr) (pos : nat)
    (s : pystr) : pystr :=
  match fuel with
  | O => s
  | S f =>
      match match_at r subject pos s with
      | Some m =>
          let n := m_end m - pos in
          repl ++
            match n with
            | O => match s with
                   | [] => []
                   | c :: s' => c :: sub_from f r repl subject (S pos) s'
                   end
            | _ => sub_from f r repl subject (m_end m) (skipn n s)
            end
      | None =>
          match s with
          | [] => []
          | c :: s' => c :: sub_from f r repl subject (S pos) s'
          end
      end
  end.

Definition re_sub (r : regex) (repl s : pystr) : pystr :=
  sub_from (S (length s)) r repl s 0 s.

(** *** The patterns *)

Local Open Scope regex_scope.

(** [[①-⑳]] *)
Definition circled_pattern : regex := Chr (Range CIRCLED_LO CIRCLED_HI).

(** [\s+] *)
Definition spaces_pattern : regex := Plus (Chr Space).

(** The article number with its optional sub-article suffix, shared by the
    three patterns below. *)
Definition article_number : regex :=
  Chr (Lit JE) $$ Plus (Chr Digit) $$ Chr (Lit JO) $$
  Opt (Chr (Lit UI) $$ Plus (Chr Digit)).

(** The pattern of [get_relation_parts]: article number, optional
    sub-article suffix, optional paragraph suffix. *)
Definition relation_part_pattern : regex :=
  Chr (Lit JE) $$ Plus (Chr Digit) $$ Chr (Lit JO) $$
  Opt (Chr (Lit UI) $$ Plus (Chr Digit)) $$
  Opt (Chr (Lit JE) $$ Plus (Chr Digit) $$ Chr (Lit HANG)).

(** The pattern tested on each tag, and the one that captures the label. *)
Definition article_start_pattern : regex := Bos $$ article_number.
Definition article_label_pattern : regex := Bos $$ Group article_number.

(** ** [clean_text] *)

Definition clean_text (text : pystr) : pystr :=
  let text := str_replace [NL] [SP] text in
  let text := re_sub circled_pattern [] text in
  let text := re_sub spaces_pattern [SP] text in
  text.

(** ** [get_relation_parts] *)

(** The loop copies the matches one by one into a fresh list. *)
Definition get_relation_parts (text : pystr) : list pystr :=
  let matches := findall relation_part_pattern text in
  fold_left (fun relation_parts m => relation_parts ++ [m]) matches [].

(** ** Reading a tag *)

Definition nonempty (s : pystr) : bool :=
  match s with [] => false | _ :: _ => true end.

(** With [strip=True] every string is stripped and the empty ones are
    skipped. *)
Definition all_strings (strip : bool) (tag : Tag) : list pystr :=
  if strip then filter nonempty (map str_strip (tag_strings tag))
  else tag_strings tag.

(** [tag.get_text(separator, strip)] *)
Definition get_text (separator : pystr) (strip : bool) (tag : Tag) : pystr :=
  str_join separator (all_strings strip tag).

(** [tag.get("id", default)] *)
Definition tag_get_id (default : pystr) (tag : Tag) : pystr :=
  match tag_id tag with
  | Some v => v
  | None => default
  end.

(** ** [parse_html_by_article_sections] *)

(** Body of the first loop: a tag whose stripped text matches the article
    pattern is recorded with its index and its label. *)
Definition find_article (it : Z * Tag) (article_indices : list (Z * pystr))
  : result (list (Z * pystr)) :=
  let '(i, tag) := it in
  let text := get_text [] true tag in
  match re_match article_start_pattern text with
  | Some _ =>
      article_id <- group1 (re_match article_label_pattern text) ;;
      Ok (article_indices ++ [(i, article_id)])
  | None => Ok article_indices
  end.

(** The text of a tag as it enters [content]. *)
Definition tag_content (tag : Tag) : pystr :=
  str_replace (py "<br />") [] (get_text [SP] true tag).

(** Body of the inner loop, on the three lists it extends. *)
Definition collect_tag (acc : list pystr * list pystr * list pystr) (tag : Tag)
  : list pystr * list pystr * list pystr :=
  let '(content_parts, id_list, relations) := acc in
  let content := tag_content tag in
  let content_parts := content_parts ++ [content] in
  let clean_content := clean_text content in
  let id_list := id_list ++ [tag_get_id (py "unknown") tag] in
  let relations := relations ++ get_relation_parts clean_content in
  (content_parts, id_list, relations).

(** The end of the span that starts at entry [idx] of [article_indices]. *)
Definition span_end (all_p_tags : list Tag) (article_indices : list (Z * pystr))
    (idx : Z) : result Z :=
  if (idx + 1 <? len article_indices)%Z
  then next <- py_getitem article_indices (idx + 1) ;; Ok (fst next)
  else Ok (len all_p_tags).

(** The chunk of the span [start_idx, end_idx). *)
Definition make_chunk (all_p_tags : list Tag) (label : pystr)
    (start_idx end_idx : Z) : result ArticleChunk :=
  let '(content_parts, id_list, relations) :=
    fold_left collect_tag (py_slice all_p_tags start_idx end_idx) ([], [], []) in
  first <- py_getitem all_p_tags start_idx ;;
  last <- py_getitem all_p_tags (end_idx - 1) ;;
  Ok {| article_id := label;
        start_id := tag_get_id (py "unknown") first;
        end_id := tag_get_id (py "unknown") last;
        content := str_join [NL] content_parts;
        paragraph_ids := id_list;
        relation_parts := py_slice_from relations 1 |}.

(** Body of the second loop. *)
Definition build_chunk (all_p_tags : list Tag) (article_indices : list (Z * pystr))
    (it : Z * (Z * pystr)) (chunks : list ArticleChunk)
  : result (list ArticleChunk) :=
  let '(idx, (start_idx, label)) := it in
  end_idx <- span_end all_p_tags article_indices idx ;;
  chunk <- make_chunk all_p_tags label start_idx end_idx ;;
  Ok (chunks ++ [chunk]).

Definition find_articles (all_p_tags : list Tag) : result (list (Z * pystr)) :=
  for_each (enumerate all_p_tags) find_article [].

(** The argument is the value of [soup.find_all("p")]. *)
Definition parse_html_by_article_sections (all_p_tags : list Tag)
  : result (list ArticleChunk) :=
  article_indices <- find_articles all_p_tags ;;
  for_each (enumerate article_indices) (build_chunk all_p_tags article_indices) [].

(** ** Auxiliary definitions for the proofs *)

(** The part of a list between two positions. *)
Definition span {A} (p e : nat) (l : list A) : list A := firstn (e - p) (skipn p l).

(** What [Plus (Chr cl)] amounts to: one or more characters of the class,
    as many as possible first. *)
Fixpoint many1 (p : char -> bool) (st : mstate) (s : pystr)
    (k : mstate -> pystr -> option mstate) : option mstate :=
  match s with
  | c :: s' =>
      if p c
      then match many1 p (advance st) s' k with
           | Some st' => Some st'
           | None => k (advance st) s'
           end
      else None
  | [] => None
  end.

(** Two outcomes of the matcher that agree on success and on where the
    match ends. *)
Definition same_end (o o' : option mstate) : Prop :=
  match o, o' with
  | Some a, Some b => mpos a = mpos b
  | None, None => True
  | _, _ => False
  end.

(** A tag opens an article when its stripped text matches the article
    pattern: the test of the first loop. *)
Definition is_article_start (tag : Tag) : bool :=
  match re_match article_start_pattern (get_text [] true tag) with
  | Some _ => true
  | None => false
  end.

(** The label the first loop takes from such a tag. *)
Definition label_of (tag : Tag) : pystr :=
  match group1 (re_match article_label_pattern (get_text [] true tag)) with
  | Ok l => l
  | Raise _ => []
  end.

(** The positions of the article-start tags, counted from [i]. *)
Fixpoint markers_from (i : nat) (tags : list Tag) : list nat :=
  match tags with
  | [] => []
  | t :: rest =>
      if is_article_start t then i :: markers_from (S i) rest
      else markers_from (S i) rest
  end.

Definition markers (tags : list Tag) : list nat := markers_from 0 tags.

(** The same positions with their labels. *)
Fixpoint entries_from (i : nat) (tags : list Tag) : list (nat * pystr) :=
  match tags with
  | [] => []
  | t :: rest =>
      if is_article_start t then (i, label_of t) :: entries_from (S i) rest
      else entries_from (S i) rest
  end.

Definition zentry (e : nat * pystr) : Z * pystr := (Z.of_nat (fst e), snd e).

Definition tag_ident (tag : Tag) : pystr := tag_get_id (py "unknown") tag.

(** All reference matches of a run of tags, tag after tag. *)
Definition refs_of (tags : list Tag) : list pystr :=
  flat_map (fun t => get_relation_parts (clean_text (tag_content t))) tags.

(** The chunk of the tags in [p, e), written from the span alone. *)
Definition chunk_of (tags : list Tag) (label : pystr) (p e : nat) : ArticleChunk :=
  let sp := span p e tags in
  {| article_id := label;
     start_id := hd [] (map tag_ident sp);
     end_id := last (map tag_ident sp) [];
     content := str_join [NL] (map tag_content sp);
     paragraph_ids := map tag_ident sp;
     relation_parts := skipn 1 (refs_of sp) |}.

(** Where the span of an entry ends: at the next entry, or at the end of
    the tags. *)
Definition next_start (tags : list Tag) (rest : list (nat * pystr)) : nat :=
  match rest with
  | [] => length tags
  | (e, _) :: _ => e
  end.

Fixpoint chunks_from (tags : list Tag) (entries : list (nat * pystr))
  : list ArticleChunk :=
  match entries with
  | [] => []
  | (p, l) :: rest => chunk_of tags l p (next_start tags rest) :: chunks_from tags rest
  end.

(** Every entry lies strictly before the next one, and all within the tags. *)
Fixpoint well_spaced (tags : list Tag) (entries : list (nat * pystr)) : Prop :=
  match entries with
  | [] => True
  | (p, _) :: rest =>
      p < next_start tags rest /\ next_start tags rest <= length tags /\
      well_spaced tags rest
  end.

(** The spans cut by a list of start positions in [n] nodes: each runs from
    its start to the next start, the last one to [n]. *)
Fixpoint spans_of (n : nat) (starts : list nat) : list (nat * nat) :=
  match starts with
  | [] => []
  | p :: rest => (p, hd n rest) :: spans_of n rest
  end.

(** The chunk spans of a document. *)
Definition chunk_spans (tags : list Tag) : list (nat * nat) :=
  spans_of (length tags) (markers tags).

(** The tags before the first article start. *)
Definition preamble (tags : list Tag) : list Tag :=
  firstn (hd (length tags) (markers tags)) tags.

(** The state after [n] more characters. *)
Definition advance_by (n : nat) (st : mstate) : mstate :=
  {| mpos := mpos st + n; mgroup1 := mgroup1 st |}.

(** The three steps of [clean_text], written as plain list functions. *)
Definition newline_to_space (c : char) : char := if (c =? NL)%N then SP else c.

Definition is_circled (c : char) : bool := ((CIRCLED_LO <=? c) && (c <=? CIRCLED_HI))%N.

(** Every run of white space becomes one space; [in_run] tells that the
    previous character was white space. *)
Fixpoint squeeze (in_run : bool) (s : pystr) : pystr :=
  match s with
  | [] => []
  | c :: s' =>
      if isspace c
      then if in_run then squeeze true s' else SP :: squeeze true s'
      else c :: squeeze false s'
  end.

(** The words of a pattern: the usual reading of a regular expression as
    a set of strings. *)
Inductive lang : regex -> pystr -> Prop :=
| lang_chr cl c : in_class cl c = true -> lang (Chr cl) [c]
| lang_bos : lang Bos []
| lang_seq r1 r2 u v : lang r1 u -> lang r2 v -> lang (Seq r1 r2) (u ++ v)
| lang_opt_skip r : lang (Opt r) []
| lang_opt_take r w : lang r w -> lang (Opt r) w
| lang_plus_last r w : lang r w -> lang (Plus r) w
| lang_plus_more r u v : lang r u -> lang (Plus r) v -> lang (Plus r) (u ++ v)
| lang_group r w : lang r w -> lang (Group r) w.

(** A number: one or more decimal digits. *)
Definition number (d : pystr) : Prop :=
  d <> [] /\ Forall (fun c => isdecimal c = true) d.

(** The reference tokens in the words of the specification: an article
    number, optionally followed by a sub-article number suffix, optionally
    followed by a paragraph number suffix. *)
Definition sub_article_suffix (w : pystr) : Prop :=
  exists m, number m /\ w = UI :: m.

Definition paragraph_suffix (w : pystr) : Prop :=
  exists k, number k /\ w = JE :: k ++ [HANG].

Definition ref_token (w : pystr) : Prop :=
  exists n sub par,
    number n /\
    (sub = [] \/ sub_article_suffix sub) /\
    (par = [] \/ paragraph_suffix par) /\
    w = JE :: n ++ JO :: sub ++ par.

(** A reference token begins at the front of [s]. *)
Definition token_at_front (s : pystr) : Prop :=
  exists w rest, s = w ++ rest /\ ref_token w.

(** The extraction in the words of the specification: the leftmost token,
    taken as far as the pattern reaches, then the same on what follows it;
    so the matches do not overlap, come in order of occurrence, and equal
    ones are all kept. *)
Inductive extracts : pystr -> list pystr -> Prop :=
| extracts_none s :
    (forall j, ~ token_at_front (skipn j s)) ->
    extracts s []
| extracts_match s pre w rest l :
    s = pre ++ w ++ rest ->
    ref_token w ->
    (forall j, j < length pre -> ~ token_at_front (skipn j s)) ->
    (forall w' rest', w ++ rest = w' ++ rest' -> ref_token w' ->
                      length w' <= length w) ->
    extracts rest l ->
    extracts s (w :: l).

(** The two optional suffixes of the reference pattern. *)
Definition sub_pattern : regex := (Chr (Lit UI) $$ Plus (Chr Digit))%regex.
Definition par_pattern : regex :=
  (Chr (Lit JE) $$ Plus (Chr Digit) $$ Chr (Lit HANG))%regex.

(** No two neighbouring characters are both white space. *)
Fixpoint no_adjacent_spaces (s : pystr) : Prop :=
  match s with
  | [] => True
  | c :: s' =>
      match s' with
      | [] => True
      | d :: _ => ~ (isspace c = true /\ isspace d = true)
      end /\ no_adjacent_spaces s'
  end.

(** A text in normal form: no newline, no circled numeral, no white space
    other than single spaces. *)
Definition normal_text (s : pystr) : Prop :=
  (forall c, In c s -> c <> NL /\ ~ circled c /\ (isspace c = true -> c = SP)) /\
  no_adjacent_spaces s.

(** The characters that normalisation leaves alone. *)
Definition plain_char (c : char) : bool :=
  negb (isspace c) && negb (is_circled c) && negb (c =? NL)%N && negb (c =? SP)%N.

(** [splits_into text ms]: the strings [ms] lie in [text] one after the
    other, in this order and without overlap. *)
Inductive splits_into : pystr -> list pystr -> Prop :=
| splits_done tail : splits_into tail []
| splits_next gap m rest ms :
    splits_into rest ms -> splits_into (gap ++ m ++ rest) (m :: ms).

(** An article label in the words of the source's pattern: an article
    number, optionally followed by a sub-article number suffix. *)
Definition article_label (w : pystr) : Prop :=
  exists n sub,
    number n /\ (sub = [] \/ sub_article_suffix sub) /\ w = JE :: n ++ JO :: sub.

(** The tags from the first article start on. *)
Definition body (tags : list Tag) : list Tag :=
  skipn (hd (length tags) (markers tags)) tags.

(** An entry moved [k] positions to the right. *)
Definition shift_entry (k : nat) (e : nat * pystr) : nat * pystr := (fst e + k, snd e).

(** The first character of the literal ["<br />"]. *)
Definition LT : char := 60%N.

(** A character that normalisation and the removal of ["<br />"] leave in
    place at the front of a text. *)
Definition stays_in_front (c : char) : Prop :=
  isspace c = false /\ is_circled c = false /\ c <> NL /\ c <> LT.

(** * Properties *)

Unset Implicit Arguments.

(** ** Lists and the error monad *)

Lemma py_getitem_nat {A} (l : list A) (n : nat) (x : A) :
  nth_error l n = Some x -> py_getitem l (Z.of_nat n) = Ok x.
Proof.
  intros H. unfold py_getitem, len.
  assert (Hlt : n < length l) by (apply nth_error_Some; congruence).
  destruct (Z.of_nat n <? 0)%Z eqn:E; [apply Z.ltb_lt in E; lia|].
  replace ((0 <=? Z.of_nat n) && (Z.of_nat n <? Z.of_nat (length l)))%Z with true.
  - now rewrite Nat2Z.id, H.
  - symmetry. apply andb_true_iff. split; [apply Z.leb_le | apply Z.ltb_lt]; lia.
Qed.

Lemma slice_bound_nat (n i : nat) :
  i <= n -> slice_bound (Z.of_nat n) (Z.of_nat i) = Z.of_nat i.
Proof.
  intros H. unfold slice_bound.
  destruct (Z.of_nat i <? 0)%Z eqn:E; [apply Z.ltb_lt in E; lia | lia].
Qed.

Lemma py_slice_nat {A} (l : list A) (p e : nat) :
  p <= e -> e <= length l ->
  py_slice l (Z.of_nat p) (Z.of_nat e) = span p e l.
Proof.
  intros Hpe He. unfold py_slice, len, span.
  rewrite !slice_bound_nat by lia.
  now rewrite <- Nat2Z.inj_sub, !Nat2Z.id by lia.
Qed.

Lemma py_slice_from_1 {A} (l : list A) : py_slice_from l 1 = skipn 1 l.
Proof.
  unfold py_slice_from, len, slice_bound. destruct l as [|x l]; [reflexivity|].
  cbn [length]. change (1 <? 0)%Z with false. cbv beta iota.
  replace (Z.to_nat (Z.min 1 (Z.of_nat (S (length l))))) with 1 by lia.
  reflexivity.
Qed.

Lemma span_length {A} (p e : nat) (l : list A) :
  e <= length l -> length (span p e l) = e - p.
Proof.
  intros H. unfold span. rewrite length_firstn, length_skipn. lia.
Qed.

Lemma span_nth_error {A} (p e j : nat) (l : list A) :
  j < e - p -> nth_error (span p e l) j = nth_error l (p + j).
Proof.
  intros H. unfold span. rewrite nth_error_firstn.
  destruct (Nat.ltb_spec j (e - p)); [|lia].
  apply nth_error_skipn.
Qed.

Lemma firstn_plus {A} (a b : nat) (l : list A) :
  firstn (a + b) l = firstn a l ++ firstn b (skipn a l).
Proof.
  revert l. induction a as [|a IH]; intros [|x l]; cbn; try reflexivity.
  - now rewrite firstn_nil.
  - now rewrite IH.
Qed.

Lemma span_app {A} (p m e : nat) (l : list A) :
  p <= m -> m <= e -> span p e l = span p m l ++ span m e l.
Proof.
  intros Hpm Hme. unfold span.
  replace (e - p) with ((m - p) + (e - m)) by lia.
  rewrite firstn_plus, skipn_skipn.
  now replace (m - p + p) with m by lia.
Qed.

Lemma span_all {A} (p : nat) (l : list A) : span p (length l) l = skipn p l.
Proof.
  unfold span. apply firstn_all2. rewrite length_skipn. lia.
Qed.

Lemma for_each_app {A S} (xs ys : list A) (body : A -> S -> result S) (st : S) :
  for_each (xs ++ ys) body st = (st' <- for_each xs body st ;; for_each ys body st').
Proof.
  revert st. induction xs as [|x xs IH]; intros st; cbn; [reflexivity|].
  destruct (body x st); cbn; [apply IH | reflexivity].
Qed.

(** ** The matcher *)

Lemma rmatch_plus_chr (cl : cclass) (st : mstate) (s : pystr) k :
  rmatch (Plus (Chr cl)) st s k = many1 (in_class cl) st s k.
Proof.
  cbn [rmatch].
  generalize (Nat.lt_succ_diag_r (length s)).
  generalize (S (length s)) as fuel.
  revert st. induction s as [|c s IH]; intros st fuel Hf.
  - destruct fuel; reflexivity.
  - destruct fuel as [|f]; [lia|]. cbn [length] in Hf.
    specialize (IH (advance st) f ltac:(lia)).
    simpl. destruct (in_class cl c); [|reflexivity].
    simpl in IH. rewrite IH.
    destruct (Nat.ltb_spec (length s) (S (length s))); [reflexivity | lia].
Qed.

(** The outcome of a match depends on the state only through the
    position: two runs from the same position, with continuations that
    agree, agree. *)
Lemma rmatch_same_end (r : regex) :
  forall st st' s k k',
    mpos st = mpos st' ->
    (forall st1 st1' s1, mpos st1 = mpos st1' -> same_end (k st1 s1) (k' st1' s1)) ->
    same_end (rmatch r st s k) (rmatch r st' s k').
Proof.
  induction r as [cl| |r1 IH1 r2 IH2|r1 IH1|r1 IH1|r1 IH1]; intros st st' s k k' Hp Hk.
  - cbn. destruct s as [|c s]; [exact I|].
    destruct (in_class cl c); [|exact I]. apply Hk. cbn. now rewrite Hp.
  - cbn. rewrite Hp. destruct (Nat.eqb (mpos st') 0); [now apply Hk | exact I].
  - cbn. apply IH1; [assumption|]. intros. now apply IH2.
  - cbn. specialize (IH1 st st' s k k' Hp Hk). specialize (Hk st st' s Hp).
    destruct (rmatch r1 st s k), (rmatch r1 st' s k'); cbn in IH1; try contradiction;
      assumption.
  - change (same_end (plus_rounds (rmatch r1) (S (length s)) st s k)
                      (plus_rounds (rmatch r1) (S (length s)) st' s k')).
    generalize (S (length s)) as fuel. intros fuel.
    revert st st' s Hp. induction fuel as [|f IHf]; intros st st' s Hp; [exact I|].
    cbn [plus_rounds]. apply IH1; [assumption|]. intros st1 st1' s1 Hp1.
    specialize (Hk st1 st1' s1 Hp1).
    destruct (Nat.ltb (length s1) (length s)); [|assumption].
    specialize (IHf st1 st1' s1 Hp1).
    destruct (plus_rounds (rmatch r1) f st1 s1 k),
             (plus_rounds (rmatch r1) f st1' s1 k');
      cbn in IHf; try contradiction; assumption.
  - cbn. apply IH1; [assumption|]. intros st1 st1' s1 Hp1. apply Hk. cbn. assumption.
Qed.

(** Whatever the matcher answers was answered by its continuation. *)
Lemma rmatch_answer (r : regex) :
  forall st s k st',
    rmatch r st s k = Some st' -> exists st1 s1, k st1 s1 = Some st'.
Proof.
  induction r as [cl| |r1 IH1 r2 IH2|r1 IH1|r1 IH1|r1 IH1]; intros st s k st' H.
  - cbn in H. destruct s as [|c s]; [discriminate|].
    destruct (in_class cl c); [eauto | discriminate].
  - cbn in H. destruct (Nat.eqb (mpos st) 0); [eauto | discriminate].
  - cbn in H. apply IH1 in H. destruct H as (st1 & s1 & H). now apply IH2 in H.
  - cbn in H. destruct (rmatch r1 st s k) eqn:E.
    + inversion H; subst. now apply IH1 in E.
    + eauto.
  - change (plus_rounds (rmatch r1) (S (length s)) st s k = Some st') in H.
    revert H. generalize (S (length s)) as fuel. intros fuel.
    revert st s. induction fuel as [|f IHf]; intros st s H; [discriminate|].
    cbn [plus_rounds] in H.
    apply IH1 in H. destruct H as (st1 & s1 & H).
    destruct (Nat.ltb (length s1) (length s)); [|eauto].
    match type of H with
    | match ?a with _ => _ end = _ => destruct a eqn:E
    end; [|eauto].
    inversion H; subst. now apply IHf in E.
  - cbn in H. apply IH1 in H. destruct H as (st1 & s1 & H). eauto.
Qed.

(** ** The first loop *)

(** When the article pattern matches, so does the capturing variant, and
    its group is set: the second [re.match] of the loop body cannot fail. *)
Lemma article_label_ok (text : pystr) (m : Match) :
  re_match article_start_pattern text = Some m ->
  exists lab, group1 (re_match article_label_pattern text) = Ok lab.
Proof.
  unfold re_match, match_at, article_start_pattern, article_label_pattern.
  remember article_number as an. cbn [rmatch at_pos mpos Nat.eqb].
  intros H.
  assert (E : same_end (rmatch an (at_pos 0) text accept)
                (rmatch an (at_pos 0) text
                   (fun st1 s1 => accept (close_group 0 st1) s1))).
  { apply rmatch_same_end; [reflexivity|]. intros st1 st1' s1 Hp. exact Hp. }
  unfold at_pos in *.
  destruct (rmatch an _ text accept) as [st|]; [|discriminate].
  destruct (rmatch an _ text (fun st1 s1 => accept (close_group 0 st1) s1))
    as [st'|] eqn:E'; [|contradiction].
  apply rmatch_answer in E'. destruct E' as (st1 & s1 & E').
  inversion E'; subst st'. cbn. eauto.
Qed.

Lemma find_article_step (i : Z) (t : Tag) (acc : list (Z * pystr)) :
  find_article (i, t) acc =
  Ok (if is_article_start t then acc ++ [(i, label_of t)] else acc).
Proof.
  unfold find_article, is_article_start, label_of.
  destruct (re_match article_start_pattern (get_text [] true t)) as [m|] eqn:E;
    [|reflexivity].
  destruct (article_label_ok _ _ E) as (lab & ->). reflexivity.
Qed.

Lemma find_loop (tags : list Tag) :
  forall (i : nat) (acc : list (Z * pystr)),
    for_each (enumerate_from (Z.of_nat i) tags) find_article acc
    = Ok (acc ++ map zentry (entries_from i tags)).
Proof.
  induction tags as [|t tags IH]; intros i acc.
  - cbn. now rewrite app_nil_r.
  - cbn [enumerate_from for_each entries_from]. rewrite find_article_step.
    cbn [bind]. replace (Z.of_nat i + 1)%Z with (Z.of_nat (S i)) by lia.
    rewrite IH. destruct (is_article_start t); [|reflexivity].
    cbn [map]. now rewrite <- app_assoc.
Qed.

Lemma find_articles_ok (tags : list Tag) :
  find_articles tags = Ok (map zentry (entries_from 0 tags)).
Proof. unfold find_articles, enumerate. apply (find_loop tags 0 []). Qed.

Lemma entries_markers (tags : list Tag) (i : nat) :
  map fst (entries_from i tags) = markers_from i tags.
Proof.
  revert i. induction tags as [|t tags IH]; intros i; cbn; [reflexivity|].
  destruct (is_article_start t); cbn; now rewrite IH.
Qed.

(** ** The second loop *)

Lemma span_single {A} (l : list A) (p : nat) (x : A) :
  nth_error l p = Some x -> span p (S p) l = [x].
Proof.
  intros H. unfold span. replace (S p - p) with 1 by lia.
  rewrite <- hd_error_skipn in H.
  destruct (skipn p l) as [|y r]; cbn in *; congruence.
Qed.

Lemma span_first {A} (l : list A) (p e : nat) (x : A) :
  p < e -> nth_error l p = Some x -> span p e l = x :: span (S p) e l.
Proof.
  intros Hpe H. rewrite (span_app p (S p) e) by lia.
  now rewrite (span_single _ _ _ H).
Qed.

Lemma span_last {A} (l : list A) (p e : nat) (x : A) :
  p < e -> nth_error l (e - 1) = Some x -> span p e l = span p (e - 1) l ++ [x].
Proof.
  intros Hpe H. rewrite (span_app p (e - 1) e) by lia.
  f_equal. replace e with (S (e - 1)) at 2 by lia. now apply span_single.
Qed.

Lemma fold_collect (l : list Tag) :
  forall a b c,
    fold_left collect_tag l (a, b, c)
    = (a ++ map tag_content l, b ++ map tag_ident l, c ++ refs_of l).
Proof.
  induction l as [|t l IH]; intros a b c.
  - cbn. now rewrite !app_nil_r.
  - cbn [fold_left collect_tag]. rewrite IH. unfold refs_of. cbn [map flat_map].
    now rewrite <- !app_assoc.
Qed.

Lemma make_chunk_ok (tags : list Tag) (label : pystr) (p e : nat) :
  p < e -> e <= length tags ->
  make_chunk tags label (Z.of_nat p) (Z.of_nat e) = Ok (chunk_of tags label p e).
Proof.
  intros Hpe He. unfold make_chunk.
  rewrite py_slice_nat by lia. rewrite fold_collect. cbn [app].
  destruct (nth_error tags p) as [t1|] eqn:E1;
    [|apply nth_error_None in E1; lia].
  destruct (nth_error tags (e - 1)) as [t2|] eqn:E2;
    [|apply nth_error_None in E2; lia].
  rewrite (py_getitem_nat _ _ _ E1). cbn [bind].
  replace (Z.of_nat e - 1)%Z with (Z.of_nat (e - 1)) by lia.
  rewrite (py_getitem_nat _ _ _ E2). cbn [bind].
  unfold chunk_of. cbv zeta. rewrite py_slice_from_1. f_equal. f_equal.
  - rewrite (span_first _ _ _ _ Hpe E1). reflexivity.
  - rewrite (span_last _ _ _ _ Hpe E2), map_app. cbn [map]. now rewrite last_last.
Qed.

Lemma span_end_ok (tags : list Tag) (pre : list (nat * pystr)) x rest :
  span_end tags (map zentry (pre ++ x :: rest)) (Z.of_nat (length pre))
  = Ok (Z.of_nat (next_start tags rest)).
Proof.
  unfold span_end, len. rewrite length_map, length_app.
  destruct rest as [|[e l] rest]; cbn [length].
  - destruct (Z.ltb_spec (Z.of_nat (length pre) + 1)
                (Z.of_nat (length pre + 1))); [lia | reflexivity].
  - destruct (Z.ltb_spec (Z.of_nat (length pre) + 1)
                (Z.of_nat (length pre + S (S (length rest))))); [|lia].
    replace (Z.of_nat (length pre) + 1)%Z with (Z.of_nat (S (length pre))) by lia.
    rewrite (py_getitem_nat _ _ (zentry (e, l))); [reflexivity|].
    rewrite nth_error_map.
    replace (pre ++ x :: (e, l) :: rest) with ((pre ++ [x]) ++ (e, l) :: rest)
      by now rewrite <- app_assoc.
    rewrite nth_error_app2; rewrite length_app; cbn [length]; [|lia].
    now replace (S (length pre) - (length pre + 1)) with 0 by lia.
Qed.

Lemma build_loop (tags : list Tag) :
  forall (suf pre : list (nat * pystr)) (acc : list ArticleChunk),
    well_spaced tags suf ->
    for_each (enumerate_from (Z.of_nat (length pre)) (map zentry suf))
      (build_chunk tags (map zentry (pre ++ suf))) acc
    = Ok (acc ++ chunks_from tags suf).
Proof.
  induction suf as [|[p l] suf IH]; intros pre acc Hw.
  - cbn. now rewrite app_nil_r.
  - destruct Hw as (Hlt & Hle & Hw).
    cbn [map enumerate_from for_each zentry fst snd build_chunk].
    change (Z.of_nat p, l) with (zentry (p, l)).
    rewrite span_end_ok. cbn [bind]. rewrite make_chunk_ok by assumption.
    cbn [bind].
    replace (Z.of_nat (length pre) + 1)%Z with (Z.of_nat (length (pre ++ [(p, l)])))
      by (rewrite length_app; cbn; lia).
    replace (pre ++ (p, l) :: suf) with ((pre ++ [(p, l)]) ++ suf)
      by now rewrite <- app_assoc.
    rewrite IH by assumption. cbn [chunks_from]. now rewrite <- app_assoc.
Qed.

Lemma entries_bounds (tags : list Tag) :
  forall i x, In x (entries_from i tags) -> i <= fst x < i + length tags.
Proof.
  induction tags as [|t tags IH]; intros i x H; [destruct H|].
  cbn [entries_from] in H. cbn [length].
  destruct (is_article_start t).
  - destruct H as [<-|H]; [cbn; lia | apply IH in H; lia].
  - apply IH in H. lia.
Qed.

Lemma entries_well_spaced (all : list Tag) :
  forall (tags : list Tag) (i : nat),
    i + length tags = length all ->
    well_spaced all (entries_from i tags).
Proof.
  induction tags as [|t tags IH]; intros i Hi; [exact I|].
  cbn [entries_from length] in *.
  destruct (is_article_start t); [|apply IH; lia].
  cbn [well_spaced]. split; [|split; [|apply IH; lia]].
  - destruct (entries_from (S i) tags) as [|[e l] r] eqn:E; cbn; [lia|].
    assert (H : In (e, l) (entries_from (S i) tags)) by (rewrite E; now left).
    apply entries_bounds in H. cbn in H. lia.
  - destruct (entries_from (S i) tags) as [|[e l] r] eqn:E; cbn; [lia|].
    assert (H : In (e, l) (entries_from (S i) tags)) by (rewrite E; now left).
    apply entries_bounds in H. cbn in H. lia.
Qed.

(** The segmenter never raises, and its chunks are those of the spans
    between consecutive article starts. *)
Lemma parse_ok (tags : list Tag) :
  parse_html_by_article_sections tags
  = Ok (chunks_from tags (entries_from 0 tags)).
Proof.
  unfold parse_html_by_article_sections. rewrite find_articles_ok. cbn [bind].
  unfold enumerate.
  apply (build_loop tags (entries_from 0 tags) [] []).
  now apply entries_well_spaced.
Qed.

Lemma chunks_spans (tags : list Tag) (entries : list (nat * pystr)) :
  well_spaced tags entries ->
  Forall2 (fun c pe => c = chunk_of tags (article_id c) (fst pe) (snd pe) /\
                       fst pe < snd pe <= length tags)
    (chunks_from tags entries) (spans_of (length tags) (map fst entries)).
Proof.
  induction entries as [|[p l] rest IH]; intros Hw; [constructor|].
  destruct Hw as (Hlt & Hle & Hw). cbn [chunks_from map spans_of fst].
  assert (E : hd (length tags) (map fst rest) = next_start tags rest)
    by (destruct rest as [|[e l'] r]; reflexivity).
  rewrite E. constructor; [|now apply IH].
  cbn. split; [reflexivity | lia].
Qed.

(** The chunks of a document, one per chunk span and built from it. *)
Lemma parse_spans (tags : list Tag) :
  exists chunks,
    parse_html_by_article_sections tags = Ok chunks /\
    Forall2 (fun c pe => c = chunk_of tags (article_id c) (fst pe) (snd pe) /\
                         fst pe < snd pe <= length tags)
      chunks (chunk_spans tags).
Proof.
  exists (chunks_from tags (entries_from 0 tags)). split; [apply parse_ok|].
  unfold chunk_spans, markers. rewrite <- entries_markers.
  apply chunks_spans. now apply entries_well_spaced.
Qed.

(** ** The article starts *)

Lemma markers_from_In (tags : list Tag) :
  forall i p,
    In p (markers_from i tags) <->
    i <= p /\ exists t, nth_error tags (p - i) = Some t /\ is_article_start t = true.
Proof.
  induction tags as [|t tags IH]; intros i p; cbn [markers_from].
  - split; [intros [] | intros (_ & t & H & _)]. now destruct (p - i).
  - assert (Hrest : In p (markers_from (S i) tags) <->
                    i < p /\ exists t', nth_error (t :: tags) (p - i) = Some t' /\
                                       is_article_start t' = true).
    { rewrite IH. split; intros (Hle & t' & Hn & Ht); (split; [lia|]); exists t';
        (split; [|assumption]).
      - replace (p - i) with (S (p - S i)) by lia. exact Hn.
      - replace (p - i) with (S (p - S i)) in Hn by lia. exact Hn. }
    destruct (is_article_start t) eqn:Et.
    + cbn [In]. rewrite Hrest. split.
      * intros [<-|(Hlt & H)]; [|split; [lia | exact H]].
        split; [lia|]. exists t. now rewrite Nat.sub_diag.
      * intros (Hle & t' & Hn & Ht).
        destruct (Nat.eq_dec i p) as [->|Hne]; [now left | right].
        split; [lia | eauto].
    + rewrite Hrest. split.
      * intros (Hlt & H). split; [lia | exact H].
      * intros (Hle & t' & Hn & Ht).
        destruct (Nat.eq_dec i p) as [->|Hne]; [|split; [lia | eauto]].
        rewrite Nat.sub_diag in Hn. cbn in Hn. congruence.
Qed.

Lemma markers_from_sorted (tags : list Tag) :
  forall i, StronglySorted lt (markers_from i tags).
Proof.
  induction tags as [|t tags IH]; intros i; cbn [markers_from]; [constructor|].
  destruct (is_article_start t); [|apply IH].
  constructor; [apply IH|]. apply Forall_forall. intros p Hp.
  apply markers_from_In in Hp. lia.
Qed.

Lemma markers_from_length (tags : list Tag) :
  forall i, length (markers_from i tags) = length (filter is_article_start tags).
Proof.
  induction tags as [|t tags IH]; intros i; cbn; [reflexivity|].
  destruct (is_article_start t); cbn; now rewrite IH.
Qed.

Lemma spans_of_length (n : nat) (starts : list nat) :
  length (spans_of n starts) = length starts.
Proof. induction starts; cbn; congruence. Qed.

Lemma spans_of_nth (n : nat) (starts : list nat) :
  forall k p, nth_error starts k = Some p ->
              nth_error (spans_of n starts) k = Some (p, nth (S k) starts n).
Proof.
  induction starts as [|q rest IH]; intros [|k] p H; cbn in *; try discriminate.
  - inversion H; subst. now destruct rest.
  - now apply IH.
Qed.

(** The spans of increasing starts tile the nodes from the first start on. *)
Lemma spans_tile {A} (l : list A) (starts : list nat) :
  StronglySorted lt starts ->
  Forall (fun p => p < length l) starts ->
  skipn (hd (length l) starts) l
  = flat_map (fun pe => span (fst pe) (snd pe) l) (spans_of (length l) starts).
Proof.
  induction starts as [|p rest IH]; intros Hs Hb.
  - cbn. now rewrite skipn_all.
  - inversion Hs as [|? ? Hs' Hlt]; subst. inversion Hb as [|? ? Hp Hb']; subst.
    cbn [hd spans_of flat_map fst snd]. rewrite <- IH by assumption.
    assert (Hm : p <= hd (length l) rest <= length l).
    { destruct rest as [|q r]; cbn; [lia|].
      inversion Hlt; subst. inversion Hb'; subst. lia. }
    rewrite <- (span_all p l), <- (span_all (hd (length l) rest) l).
    apply span_app; lia.
Qed.

Lemma spans_of_sorted (n : nat) (starts : list nat) :
  StronglySorted lt starts ->
  Forall (fun p => p < n) starts ->
  StronglySorted (fun a b => snd a <= fst b) (spans_of n starts).
Proof.
  induction starts as [|p rest IH]; intros Hs Hb; cbn; [constructor|].
  inversion Hs as [|? ? Hs' Hlt]; subst. inversion Hb as [|? ? Hp Hb']; subst.
  constructor; [now apply IH|].
  apply Forall_forall. intros [a b] Hin. cbn.
  destruct rest as [|q r]; [destruct Hin|]. cbn [hd].
  cbn [spans_of] in Hin. destruct Hin as [Heq|Hin].
  - inversion Heq; subst. lia.
  - assert (Ha : In a r).
    { clear - Hin. induction r as [|x r IHr]; [destruct Hin|].
      cbn in Hin. destruct Hin as [Heq|Hin]; [inversion Heq; now left|].
      right. now apply IHr. }
    inversion Hs' as [|? ? _ Hq]; subst.
    rewrite Forall_forall in Hq. apply Hq in Ha. lia.
Qed.

Lemma markers_bound (tags : list Tag) :
  Forall (fun p => p < length tags) (markers tags).
Proof.
  apply Forall_forall. intros p Hp. apply markers_from_In in Hp.
  destruct Hp as (_ & t & Hn & _). rewrite Nat.sub_0_r in Hn.
  apply nth_error_Some. congruence.
Qed.

Lemma preamble_no_start (tags : list Tag) :
  Forall (fun t => is_article_start t = false) (preamble tags).
Proof.
  apply Forall_forall. intros t Hin. unfold preamble in Hin.
  apply In_nth_error in Hin. destruct Hin as (j & Hj).
  rewrite nth_error_firstn in Hj.
  destruct (Nat.ltb_spec j (hd (length tags) (markers tags))) as [Hlt|];
    [|discriminate].
  destruct (is_article_start t) eqn:E; [exfalso | reflexivity].
  assert (Hm : In j (markers tags)).
  { apply markers_from_In. split; [lia|]. exists t. now rewrite Nat.sub_0_r. }
  pose proof (markers_from_sorted tags 0) as Hs. fold (markers tags) in Hs.
  destruct (markers tags) as [|m0 rest]; [destruct Hm|]. cbn [hd] in Hlt.
  inversion Hs as [|? ? _ Hall]; subst. rewrite Forall_forall in Hall.
  destruct Hm as [->|Hm]; [lia | apply Hall in Hm; lia].
Qed.

Lemma spans_of_contiguous (n : nat) (starts : list nat) :
  forall k a b,
    nth_error (spans_of n starts) k = Some a ->
    nth_error (spans_of n starts) (S k) = Some b ->
    snd a = fst b.
Proof.
  induction starts as [|p rest IH]; intros [|k] a b Ha Hb; cbn in *;
    try discriminate.
  - inversion Ha; subst. destruct rest as [|q r]; cbn in *; [discriminate|].
    now inversion Hb.
  - eapply IH; eassumption.
Qed.

Lemma entries_none (tags : list Tag) :
  Forall (fun t => is_article_start t = false) tags ->
  forall i, entries_from i tags = [].
Proof.
  induction 1 as [|t tags Ht _ IH]; intros i; cbn; [reflexivity|].
  now rewrite Ht.
Qed.

(** ** Segmentation *)

(** C1. A document with N article-start tags yields N chunks; chunk k is
    built from the tags between the k-th start and the next one (the end of
    the document for the last); these spans are in order, adjacent and
    disjoint, and together with the tags before the first start, which hold
    no article start and enter no chunk, they make up the whole document. *)
Theorem segment_spans (tags : list Tag) :
  exists chunks,
    parse_html_by_article_sections tags = Ok chunks /\
    (forall p, In p (markers tags) <->
               exists t, nth_error tags p = Some t /\ is_article_start t = true) /\
    StronglySorted lt (markers tags) /\
    length (markers tags) = length (filter is_article_start tags) /\
    length chunks = length (filter is_article_start tags) /\
    (forall k p, nth_error (markers tags) k = Some p ->
                 nth_error (chunk_spans tags) k
                 = Some (p, nth (S k) (markers tags) (length tags))) /\
    Forall2 (fun c pe =>
               fst pe < snd pe <= length tags /\
               make_chunk tags (article_id c) (Z.of_nat (fst pe)) (Z.of_nat (snd pe))
               = Ok c /\
               paragraph_ids c = map tag_ident (span (fst pe) (snd pe) tags))
      chunks (chunk_spans tags) /\
    StronglySorted (fun a b => snd a <= fst b) (chunk_spans tags) /\
    (forall k a b, nth_error (chunk_spans tags) k = Some a ->
                   nth_error (chunk_spans tags) (S k) = Some b ->
                   snd a = fst b) /\
    tags = preamble tags
           ++ flat_map (fun pe => span (fst pe) (snd pe) tags) (chunk_spans tags) /\
    Forall (fun t => is_article_start t = false) (preamble tags).
Proof.
  destruct (parse_spans tags) as (chunks & Hp & Hc).
  exists chunks. split; [exact Hp|].
  split.
  { intros p. unfold markers. rewrite markers_from_In, Nat.sub_0_r.
    split; [intros (_ & H); exact H | intros H; split; [lia | exact H]]. }
  split; [apply markers_from_sorted|].
  split; [apply markers_from_length|].
  split.
  { rewrite (Forall2_length Hc). unfold chunk_spans.
    rewrite spans_of_length. apply markers_from_length. }
  split; [intros k p; apply spans_of_nth|].
  split.
  { revert Hc. apply Forall2_impl. intros c [p e] (Hc & Hlt). cbn [fst snd] in *.
    split; [exact Hlt|]. split.
    - rewrite make_chunk_ok by lia. now rewrite <- Hc.
    - rewrite Hc. reflexivity. }
  split.
  { apply spans_of_sorted; [apply markers_from_sorted | apply markers_bound]. }
  split; [apply spans_of_contiguous|].
  split; [|apply preamble_no_start].
  unfold chunk_spans, preamble.
  rewrite <- spans_tile by (apply markers_from_sorted || apply markers_bound).
  symmetry. apply firstn_skipn.
Qed.

(** C4. A document in which no tag's stripped text matches the article
    pattern yields the empty chunk list, without any exception. *)
Theorem no_article_no_chunk (tags : list Tag) :
  (forall t, In t tags ->
             re_match article_start_pattern (get_text [] true t) = None) ->
  parse_html_by_article_sections tags = Ok [].
Proof.
  intros H. rewrite parse_ok. rewrite entries_none; [reflexivity|].
  apply Forall_forall. intros t Ht. unfold is_article_start. now rewrite (H t Ht).
Qed.

(** C5. In every chunk, [content] is the newline join of as many text
    fragments as [paragraph_ids] has entries, one per tag of the span, and
    the j-th fragment and the j-th identifier come from the j-th tag. *)
Theorem content_ids_parallel (tags : list Tag) :
  exists chunks,
    parse_html_by_article_sections tags = Ok chunks /\
    Forall2 (fun c pe =>
               exists content_parts,
                 content c = str_join [NL] content_parts /\
                 length content_parts = length (paragraph_ids c) /\
                 length content_parts = length (span (fst pe) (snd pe) tags) /\
                 forall j t,
                   nth_error (span (fst pe) (snd pe) tags) j = Some t ->
                   nth_error content_parts j = Some (tag_content t) /\
                   nth_error (paragraph_ids c) j = Some (tag_get_id (py "unknown") t))
      chunks (chunk_spans tags).
Proof.
  destruct (parse_spans tags) as (chunks & Hp & Hc).
  exists chunks. split; [exact Hp|].
  revert Hc. apply Forall2_impl. intros c [p e] (Hc & Hlt). cbn [fst snd] in *.
  exists (map tag_content (span p e tags)). rewrite Hc. cbn.
  rewrite !length_map. repeat split; try reflexivity.
  - now rewrite nth_error_map, H.
  - now rewrite nth_error_map, H.
Qed.

(** C9. A tag of a span that has no [id] attribute is recorded as
    "unknown": at its place in [paragraph_ids], and as [start_id] or
    [end_id] when it is the first or the last tag of the span; the
    segmenter does not fail on such tags. *)
Theorem missing_id_unknown (tags : list Tag) :
  exists chunks,
    parse_html_by_article_sections tags = Ok chunks /\
    Forall2 (fun c pe =>
               (forall j t, nth_error (span (fst pe) (snd pe) tags) j = Some t ->
                            tag_id t = None ->
                            nth_error (paragraph_ids c) j = Some (py "unknown")) /\
               (forall t, nth_error tags (fst pe) = Some t -> tag_id t = None ->
                          start_id c = py "unknown") /\
               (forall t, nth_error tags (snd pe - 1) = Some t -> tag_id t = None ->
                          end_id c = py "unknown"))
      chunks (chunk_spans tags).
Proof.
  destruct (parse_spans tags) as (chunks & Hp & Hc).
  exists chunks. split; [exact Hp|].
  revert Hc. apply Forall2_impl. intros c [p e] (Hc & Hlt). cbn [fst snd] in *.
  rewrite Hc. cbn [paragraph_ids start_id end_id chunk_of]. repeat split.
  - intros j t Hj Hid. rewrite nth_error_map, Hj. cbn.
    unfold tag_ident, tag_get_id. now rewrite Hid.
  - intros t Ht Hid. rewrite (span_first _ _ _ _ (proj1 Hlt) Ht). cbn.
    unfold tag_ident, tag_get_id. now rewrite Hid.
  - intros t Ht Hid. rewrite (span_last _ _ _ _ (proj1 Hlt) Ht), map_app.
    cbn [map]. rewrite last_last. unfold tag_ident, tag_get_id. now rewrite Hid.
Qed.

(** C10. Every chunk spans at least one tag: [paragraph_ids] is not empty,
    it begins with [start_id] and ends with [end_id]. *)
Theorem chunk_nonempty (tags : list Tag) :
  exists chunks,
    parse_html_by_article_sections tags = Ok chunks /\
    Forall2 (fun c pe =>
               fst pe < snd pe /\
               length (paragraph_ids c) = snd pe - fst pe /\
               paragraph_ids c <> [] /\
               hd_error (paragraph_ids c) = Some (start_id c) /\
               (exists front, paragraph_ids c = front ++ [end_id c]))
      chunks (chunk_spans tags).
Proof.
  destruct (parse_spans tags) as (chunks & Hp & Hc).
  exists chunks. split; [exact Hp|].
  revert Hc. apply Forall2_impl. intros c [p e] (Hc & Hlt). cbn [fst snd] in *.
  destruct (nth_error tags p) as [t1|] eqn:E1;
    [|apply nth_error_None in E1; lia].
  destruct (nth_error tags (e - 1)) as [t2|] eqn:E2;
    [|apply nth_error_None in E2; lia].
  rewrite Hc. cbn [paragraph_ids start_id end_id chunk_of].
  split; [lia|]. split; [rewrite length_map, span_length; lia|].
  split; [rewrite (span_first _ _ _ _ (proj1 Hlt) E1); discriminate|].
  split; [rewrite (span_first _ _ _ _ (proj1 Hlt) E1); reflexivity|].
  exists (map tag_ident (span p (e - 1) tags)).
  rewrite (span_last _ _ _ _ (proj1 Hlt) E2), map_app. cbn [map].
  now rewrite last_last.
Qed.

(** C3. Dropping the first match cannot fail: the slice of an empty list is
    empty.  A chunk whose tags hold no match, or just one, gets an empty
    [relation_parts], and the segmenter returns normally. *)
Theorem drop_first_no_underflow (tags : list Tag) :
  py_slice_from (@nil pystr) 1 = [] /\
  exists chunks,
    parse_html_by_article_sections tags = Ok chunks /\
    Forall2 (fun c pe =>
               let found :=
                 flat_map (fun t => get_relation_parts (clean_text (tag_content t)))
                   (span (fst pe) (snd pe) tags) in
               (found = [] -> relation_parts c = []) /\
               (forall w, found = [w] -> relation_parts c = []))
      chunks (chunk_spans tags).
Proof.
  split; [reflexivity|].
  destruct (parse_spans tags) as (chunks & Hp & Hc).
  exists chunks. split; [exact Hp|].
  revert Hc. apply Forall2_impl. intros c [p e] (Hc & Hlt). cbn [fst snd] in *.
  rewrite Hc. cbn [relation_parts chunk_of]. unfold refs_of.
  split; [intros ->; reflexivity | intros w ->; reflexivity].
Qed.

(** ** Greedy runs *)

Lemma advance_by_advance (n : nat) (st : mstate) :
  advance_by n (advance st) = advance_by (S n) st.
Proof. unfold advance_by, advance. cbn. f_equal. lia. Qed.

Lemma take_while_nil_drop {A} (p : A -> bool) (l : list A) :
  take_while p l = [] -> drop_while p l = l.
Proof. destruct l as [|x l]; cbn; [reflexivity|]. now destruct (p x). Qed.

Lemma take_drop_while {A} (p : A -> bool) (l : list A) :
  take_while p l ++ drop_while p l = l.
Proof.
  induction l as [|x l IH]; cbn; [reflexivity|].
  destruct (p x); cbn; [now rewrite IH | reflexivity].
Qed.

Lemma skipn_take_while {A} (p : A -> bool) (l : list A) :
  skipn (length (take_while p l)) l = drop_while p l.
Proof.
  induction l as [|x l IH]; cbn; [reflexivity|].
  destruct (p x); cbn; [exact IH | reflexivity].
Qed.

Lemma firstn_take_while {A} (p : A -> bool) (l : list A) :
  firstn (length (take_while p l)) l = take_while p l.
Proof.
  induction l as [|x l IH]; cbn; [reflexivity|].
  destruct (p x); cbn; [now rewrite IH | reflexivity].
Qed.

Lemma drop_while_length {A} (p : A -> bool) (l : list A) :
  length (drop_while p l) <= length l.
Proof.
  induction l as [|x l IH]; cbn; [lia|]. destruct (p x); cbn; lia.
Qed.

(** A greedy run takes all the characters of the class, provided that the
    continuation either never fails, or fails whenever a character of the
    class comes next (so that giving characters back cannot help). *)
Lemma many1_run (p : char -> bool) (k : mstate -> pystr -> option mstate) :
  (forall st s, k st s <> None) \/
  (forall st c s, p c = true -> k st (c :: s) = None) ->
  forall s st,
    many1 p st s k =
    match take_while p s with
    | [] => None
    | run => k (advance_by (length run) st) (drop_while p s)
    end.
Proof.
  intros Hk. induction s as [|c s IH]; intros st; [reflexivity|].
  cbn [many1 take_while drop_while]. destruct (p c) eqn:Ec; [|reflexivity].
  rewrite IH. destruct (take_while p s) as [|d run] eqn:Er.
  - rewrite (take_while_nil_drop _ _ Er). cbn. f_equal.
    unfold advance_by, advance. cbn. f_equal. lia.
  - cbn [length]. rewrite advance_by_advance.
    destruct (k (advance_by (S (S (length run))) st) (drop_while p s)) eqn:Ek;
      [reflexivity|].
    destruct Hk as [Hk|Hk]; [now apply Hk in Ek|].
    destruct s as [|d' s']; [discriminate|]. cbn in Er.
    destruct (p d') eqn:Ed; [|discriminate]. now apply Hk.
Qed.

(** ** [clean_text], step by step *)

Lemma replace_newlines (s : pystr) :
  str_replace [NL] [SP] s = map newline_to_space s.
Proof.
  unfold str_replace. generalize (Nat.le_refl (length s)).
  generalize (length s) at 2 3 as fuel. intros fuel. revert fuel.
  induction s as [|c s IH]; intros fuel Hf; [now destruct fuel|].
  destruct fuel as [|f]; [cbn in Hf; lia|]. cbn [length] in Hf.
  cbn [replace_from starts_with length skipn map]. unfold newline_to_space at 1.
  rewrite andb_true_r, N.eqb_sym.
  destruct (c =? NL)%N; cbn [app]; now rewrite IH by lia.
Qed.

Lemma delete_circled_from (subject : pystr) :
  forall (s : pystr) (pos fuel : nat),
    length s < fuel ->
    sub_from fuel circled_pattern [] subject pos s
    = filter (fun c => negb (is_circled c)) s.
Proof.
  induction s as [|c s IH]; intros pos fuel Hf; (destruct fuel as [|f]; [lia|]).
  - reflexivity.
  - cbn [length] in Hf.
    cbn [sub_from filter]. unfold match_at, circled_pattern.
    cbn [rmatch in_class].
    change ((CIRCLED_LO <=? c) && (c <=? CIRCLED_HI))%N with (is_circled c).
    destruct (is_circled c); cbn [negb accept advance at_pos mpos m_end app].
    + replace (S pos - pos) with 1 by lia. cbn [skipn]. apply IH. lia.
    + f_equal. apply IH. lia.
Qed.

Lemma delete_circled (s : pystr) :
  re_sub circled_pattern [] s = filter (fun c => negb (is_circled c)) s.
Proof. apply delete_circled_from. lia. Qed.

Lemma spaces_match (subject s : pystr) (pos : nat) :
  match_at spaces_pattern subject pos s =
  match take_while isspace s with
  | [] => None
  | run => Some {| m_string := subject; m_start := pos;
                   m_end := pos + length run; m_group1 := None |}
  end.
Proof.
  unfold match_at, spaces_pattern. rewrite rmatch_plus_chr.
  rewrite many1_run by (left; discriminate).
  change (in_class Space) with isspace.
  destruct (take_while isspace s); reflexivity.
Qed.

Lemma squeeze_in_run (s : pystr) :
  squeeze true s = squeeze false (drop_while isspace s).
Proof.
  induction s as [|c s IH]; cbn; [reflexivity|].
  destruct (isspace c) eqn:E; [exact IH|]. cbn. now rewrite E.
Qed.

Lemma squeeze_spaces_from (subject : pystr) :
  forall (fuel : nat) (s : pystr) (pos : nat),
    length s < fuel ->
    sub_from fuel spaces_pattern [SP] subject pos s = squeeze false s.
Proof.
  induction fuel as [|f IH]; intros s pos Hf; [lia|].
  cbn [sub_from]. rewrite spaces_match.
  destruct s as [|c s]; [reflexivity|]. cbn [take_while squeeze].
  destruct (isspace c) eqn:Ec.
  - cbn [m_end length]. replace (pos + S (length (take_while isspace s)) - pos)
      with (S (length (take_while isspace s))) by lia.
    cbn [skipn app]. rewrite skipn_take_while, squeeze_in_run. f_equal.
    apply IH. pose proof (drop_while_length isspace s). cbn [length] in Hf. lia.
  - f_equal. apply IH. cbn [length] in Hf. lia.
Qed.

Lemma squeeze_spaces (s : pystr) :
  re_sub spaces_pattern [SP] s = squeeze false s.
Proof. apply squeeze_spaces_from. lia. Qed.

Lemma clean_text_steps (s : pystr) :
  clean_text s
  = squeeze false (filter (fun c => negb (is_circled c)) (map newline_to_space s)).
Proof.
  unfold clean_text. now rewrite replace_newlines, delete_circled, squeeze_spaces.
Qed.

(** ** Normalisation *)

Lemma squeeze_chars (s : pystr) :
  forall b c, In c (squeeze b s) -> c = SP \/ In c s.
Proof.
  induction s as [|d s IH]; intros b c H; [destruct H|].
  cbn [squeeze] in H. destruct (isspace d).
  - destruct b.
    + apply IH in H. destruct H; [now left | right; now right].
    + destruct H as [<-|H]; [now left|].
      apply IH in H. destruct H; [now left | right; now right].
  - destruct H as [<-|H]; [right; now left|].
    apply IH in H. destruct H; [now left | right; now right].
Qed.

Lemma squeeze_no_space (s : pystr) :
  Forall (fun c => isspace c = false) s -> forall b, squeeze b s = s.
Proof.
  induction 1 as [|c s Hc _ IH]; intros b; cbn; [reflexivity|].
  now rewrite Hc, IH.
Qed.

Lemma squeeze_idempotent (s : pystr) :
  squeeze false (squeeze false s) = squeeze false s.
Proof.
  destruct (isspace SP) eqn:Esp.
  - generalize false. induction s as [|c s IH]; intros b; [reflexivity|].
    cbn [squeeze]. destruct (isspace c) eqn:Ec.
    + destruct b; [apply IH|]. cbn [squeeze]. rewrite Esp. now rewrite IH.
    + cbn [squeeze]. rewrite Ec. now rewrite IH.
  - apply squeeze_no_space.
    assert (H : forall b, Forall (fun c => isspace c = false) (squeeze b s));
      [|apply H].
    induction s as [|c s IH]; intros b; [constructor|].
    cbn [squeeze]. destruct (isspace c) eqn:Ec.
    + destruct b; [apply IH | constructor; [exact Esp | apply IH]].
    + constructor; [exact Ec | apply IH].
Qed.

Lemma map_id_on {A} (f : A -> A) (l : list A) :
  Forall (fun x => f x = x) l -> map f l = l.
Proof. induction 1; cbn; congruence. Qed.

Lemma filter_all {A} (f : A -> bool) (l : list A) :
  Forall (fun x => f x = true) l -> filter f l = l.
Proof.
  induction 1 as [|x l Hx _ IH]; cbn; [reflexivity|]. now rewrite Hx, IH.
Qed.

Lemma newline_to_space_fixed (c : char) :
  c <> NL -> newline_to_space c = c.
Proof.
  intros H. unfold newline_to_space. destruct (N.eqb_spec c NL); congruence.
Qed.

Lemma newline_to_space_neq (c : char) : newline_to_space c <> NL.
Proof.
  unfold newline_to_space. destruct (N.eqb_spec c NL); [discriminate | assumption].
Qed.

(** What a normalised text is made of: spaces and characters of the input
    that are neither newlines nor circled numerals. *)
Lemma clean_text_chars (s : pystr) (c : char) :
  In c (clean_text s) -> c <> NL /\ is_circled c = false.
Proof.
  rewrite clean_text_steps. intros H. apply squeeze_chars in H.
  destruct H as [->|H]; [split; [discriminate | reflexivity]|].
  apply filter_In in H. destruct H as (H & Hc). apply in_map_iff in H.
  destruct H as (x & <- & _). split; [apply newline_to_space_neq|].
  now apply negb_true_iff.
Qed.

(** C8. Normalising twice is the same as normalising once. *)
Theorem clean_text_idempotent (s : pystr) :
  clean_text (clean_text s) = clean_text s.
Proof.
  rewrite (clean_text_steps (clean_text s)).
  rewrite map_id_on.
  - rewrite filter_all.
    + rewrite clean_text_steps. apply squeeze_idempotent.
    + apply Forall_forall. intros c Hc. apply clean_text_chars in Hc.
      apply negb_true_iff. tauto.
  - apply Forall_forall. intros c Hc. apply clean_text_chars in Hc.
    apply newline_to_space_fixed. tauto.
Qed.

(** ** The matcher finds words of the pattern *)

Lemma rmatch_sound (r : regex) :
  forall st s k st',
    rmatch r st s k = Some st' ->
    exists u rest st1,
      s = u ++ rest /\ lang r u /\ mpos st1 = mpos st + length u /\
      k st1 rest = Some st'.
Proof.
  induction r as [cl| |r1 IH1 r2 IH2|r1 IH1|r1 IH1|r1 IH1]; intros st s k st' H.
  - cbn in H. destruct s as [|c s]; [discriminate|].
    destruct (in_class cl c) eqn:E; [|discriminate].
    exists [c], s, (advance st). repeat split; try assumption.
    + now constructor.
    + cbn. lia.
  - cbn in H. destruct (Nat.eqb (mpos st) 0); [|discriminate].
    exists [], s, st. repeat split; try assumption; [constructor | cbn; lia].
  - cbn in H. apply IH1 in H. destruct H as (u1 & rest1 & st1 & -> & L1 & P1 & H).
    apply IH2 in H. destruct H as (u2 & rest2 & st2 & -> & L2 & P2 & H).
    exists (u1 ++ u2), rest2, st2. repeat split; try assumption.
    + now rewrite app_assoc.
    + now constructor.
    + rewrite length_app. lia.
  - cbn in H. destruct (rmatch r1 st s k) as [x|] eqn:E.
    + inversion H; subst x. apply IH1 in E.
      destruct E as (u & rest & st1 & -> & L & P & E).
      exists u, rest, st1. repeat split; try assumption. now apply lang_opt_take.
    + exists [], s, st. repeat split; try assumption; [constructor | cbn; lia].
  - change (plus_rounds (rmatch r1) (S (length s)) st s k = Some st') in H.
    revert H. generalize (S (length s)) as fuel. intros fuel. revert st s.
    induction fuel as [|f IHf]; intros st s H; [discriminate|].
    cbn [plus_rounds] in H. apply IH1 in H.
    destruct H as (u1 & rest1 & st1 & -> & L1 & P1 & H).
    destruct (if Nat.ltb (length rest1) (length (u1 ++ rest1))
              then plus_rounds (rmatch r1) f st1 rest1 k else None) as [x|] eqn:E.
    + inversion H; subst x.
      destruct (Nat.ltb (length rest1) (length (u1 ++ rest1))); [|discriminate].
      apply IHf in E. destruct E as (u2 & rest2 & st2 & -> & L2 & P2 & E).
      exists (u1 ++ u2), rest2, st2. repeat split; try assumption.
      * now rewrite app_assoc.
      * now apply lang_plus_more.
      * rewrite length_app. lia.
    + exists u1, rest1, st1. repeat split; try assumption. now apply lang_plus_last.
  - cbn in H. apply IH1 in H. destruct H as (u & rest & st1 & -> & L & P & H).
    exists u, rest, (close_group (mpos st) st1). repeat split; try assumption.
    now constructor.
Qed.

Lemma match_at_sound (r : regex) (subject s : pystr) (pos : nat) (m : Match) :
  match_at r subject pos s = Some m ->
  exists u rest, s = u ++ rest /\ lang r u /\ m_end m = pos + length u.
Proof.
  unfold match_at. destruct (rmatch r (at_pos pos) s accept) as [st|] eqn:E;
    [|discriminate].
  intros H. inversion H; subst m. cbn [m_end].
  apply rmatch_sound in E. destruct E as (u & rest & st1 & -> & L & P & E).
  inversion E; subst st1. exists u, rest. repeat split; assumption.
Qed.

Lemma findall_from_lang (r : regex) (subject : pystr) (w : pystr) :
  forall fuel pos s, In w (findall_from fuel r subject pos s) -> lang r w.
Proof.
  induction fuel as [|f IH]; intros pos s H; [destruct H|].
  cbn [findall_from] in H.
  destruct (match_at r subject pos s) as [m|] eqn:E.
  - destruct (match_at_sound _ _ _ _ _ E) as (u & rest & -> & L & Hend).
    rewrite Hend in H. replace (pos + length u - pos) with (length u) in H by lia.
    rewrite firstn_app, Nat.sub_diag, firstn_all, firstn_O, app_nil_r in H.
    destruct H as [<-|H]; [exact L|].
    destruct (length u); [destruct (u ++ rest)|]; try (now apply IH in H).
    destruct H.
  - destruct s; [destruct H | now apply IH in H].
Qed.

(** ** The fuel of the scanning loops is enough *)

Lemma replace_from_enough (old new : pystr) :
  old <> [] ->
  forall f1 f2 s,
    length s <= f1 -> length s <= f2 ->
    replace_from f1 old new s = replace_from f2 old new s.
Proof.
  intros Hold. induction f1 as [|f1 IH]; intros f2 s H1 H2.
  - destruct s; [now destruct f2 | cbn in H1; lia].
  - destruct f2 as [|f2]; [destruct s; [reflexivity | cbn in H2; lia]|].
    cbn [replace_from]. destruct s as [|c s]; [reflexivity|].
    cbn [length] in H1, H2.
    destruct (starts_with old (c :: s)).
    + f_equal. destruct old as [|a old]; [congruence|]. cbn [length skipn].
      pose proof (length_skipn (length old) s).
      apply IH; lia.
    + f_equal. apply IH; lia.
Qed.

Lemma findall_from_enough (r : regex) (subject : pystr) :
  forall f1 f2 pos s,
    length s < f1 -> length s < f2 ->
    findall_from f1 r subject pos s = findall_from f2 r subject pos s.
Proof.
  induction f1 as [|f1 IH]; intros f2 pos s H1 H2; [lia|].
  destruct f2 as [|f2]; [lia|]. cbn [findall_from].
  destruct (match_at r subject pos s) as [m|] eqn:E.
  - destruct (match_at_sound _ _ _ _ _ E) as (u & rest & -> & _ & Hend).
    rewrite Hend. replace (pos + length u - pos) with (length u) by lia.
    f_equal. rewrite length_app in H1, H2.
    destruct (length u) as [|n] eqn:El.
    + destruct (u ++ rest) as [|c t] eqn:Et; [reflexivity|].
      assert (length (c :: t) = length rest)
        by (rewrite <- Et, length_app; lia).
      cbn [length] in *. apply IH; lia.
    + rewrite <- El, skipn_app, Nat.sub_diag, skipn_all, skipn_O. cbn [app].
      apply IH; lia.
  - destruct s as [|c s]; [reflexivity|]. cbn [length] in H1, H2. apply IH; lia.
Qed.

Lemma sub_from_enough (r : regex) (repl subject : pystr) :
  forall f1 f2 pos s,
    length s < f1 -> length s < f2 ->
    sub_from f1 r repl subject pos s = sub_from f2 r repl subject pos s.
Proof.
  induction f1 as [|f1 IH]; intros f2 pos s H1 H2; [lia|].
  destruct f2 as [|f2]; [lia|]. cbn [sub_from].
  destruct (match_at r subject pos s) as [m|] eqn:E.
  - destruct (match_at_sound _ _ _ _ _ E) as (u & rest & -> & _ & Hend).
    rewrite Hend. replace (pos + length u - pos) with (length u) by lia.
    f_equal. rewrite length_app in H1, H2.
    destruct (length u) as [|n] eqn:El.
    + destruct (u ++ rest) as [|c t] eqn:Et; [reflexivity|].
      assert (length (c :: t) = length rest)
        by (rewrite <- Et, length_app; lia).
      cbn [length] in *. f_equal. apply IH; lia.
    + rewrite <- El, skipn_app, Nat.sub_diag, skipn_all, skipn_O. cbn [app].
      apply IH; lia.
  - destruct s as [|c s]; [reflexivity|]. cbn [length] in H1, H2.
    f_equal. apply IH; lia.
Qed.

Lemma copy_loop {A} (l : list A) :
  forall acc, fold_left (fun out x => out ++ [x]) l acc = acc ++ l.
Proof.
  induction l as [|x l IH]; intros acc; cbn; [now rewrite app_nil_r|].
  now rewrite IH, <- app_assoc.
Qed.

Lemma get_relation_parts_findall (text : pystr) :
  get_relation_parts text = findall relation_part_pattern text.
Proof. unfold get_relation_parts. apply copy_loop. Qed.

(** ** The words of the reference pattern *)

Lemma lang_lit_inv (a : char) (w : pystr) : lang (Chr (Lit a)) w -> w = [a].
Proof.
  intros H. inversion H as [cl c Hc| | | | | | |]; subst.
  cbn in Hc. apply N.eqb_eq in Hc. now subst.
Qed.

Lemma lang_seq_inv (r1 r2 : regex) (w : pystr) :
  lang (Seq r1 r2) w -> exists u v, w = u ++ v /\ lang r1 u /\ lang r2 v.
Proof. intros H. inversion H; subst. eauto. Qed.

Lemma lang_opt_inv (r : regex) (w : pystr) :
  lang (Opt r) w -> w = [] \/ lang r w.
Proof. intros H. inversion H; subst; auto. Qed.

Lemma lang_digits (w : pystr) : lang (Plus (Chr Digit)) w -> number w.
Proof.
  intros H. remember (Plus (Chr Digit)) as r eqn:Er.
  induction H as [| | | | |r w H _|r u v Hu _ Hv IH|]; try discriminate;
    inversion Er; subst r.
  - inversion H as [cl c Hc| | | | | | |]; subst. cbn in Hc.
    split; [discriminate | now repeat constructor].
  - specialize (IH eq_refl). destruct IH as (_ & IH).
    inversion Hu as [cl c Hc| | | | | | |]; subst. cbn in Hc.
    split; [discriminate | now constructor].
Qed.

Lemma lang_ref_token (w : pystr) : lang relation_part_pattern w -> ref_token w.
Proof.
  unfold relation_part_pattern. intros H.
  apply lang_seq_inv in H. destruct H as (a & w1 & -> & Ha & H).
  apply lang_lit_inv in Ha. subst a.
  apply lang_seq_inv in H. destruct H as (n & w2 & -> & Hn & H).
  apply lang_digits in Hn.
  apply lang_seq_inv in H. destruct H as (b & w3 & -> & Hb & H).
  apply lang_lit_inv in Hb. subst b.
  apply lang_seq_inv in H. destruct H as (sub & par & -> & Hsub & Hpar).
  exists n, sub, par. split; [assumption|]. split; [|split; [|reflexivity]].
  - apply lang_opt_inv in Hsub. destruct Hsub as [->|H]; [now left | right].
    apply lang_seq_inv in H. destruct H as (a & m & -> & Ha & Hm).
    apply lang_lit_inv in Ha. subst a. apply lang_digits in Hm.
    exists m. now split.
  - apply lang_opt_inv in Hpar. destruct Hpar as [->|H]; [now left | right].
    apply lang_seq_inv in H. destruct H as (a & w1 & -> & Ha & H).
    apply lang_lit_inv in Ha. subst a.
    apply lang_seq_inv in H. destruct H as (k & h & -> & Hk & Hh).
    apply lang_digits in Hk. apply lang_lit_inv in Hh. subst h.
    exists k. now split.
Qed.

Lemma get_relation_parts_tokens (text w : pystr) :
  In w (get_relation_parts text) -> ref_token w.
Proof.
  rewrite get_relation_parts_findall. unfold findall. intros H.
  apply findall_from_lang in H. now apply lang_ref_token.
Qed.

Lemma number_chars (d : pystr) (c : char) :
  number d -> In c d -> isdecimal c = true.
Proof. intros (_ & H) Hc. rewrite Forall_forall in H. now apply H. Qed.

Lemma ref_token_chars (w : pystr) (c : char) :
  ref_token w -> In c w ->
  c = JE \/ c = JO \/ c = UI \/ c = HANG \/ isdecimal c = true.
Proof.
  intros (n & sub & par & Hn & Hsub & Hpar & ->) Hc.
  destruct Hc as [<-|Hc]; [now left|].
  apply in_app_or in Hc. destruct Hc as [Hc|Hc].
  { right. right. right. right. eapply number_chars; eassumption. }
  destruct Hc as [<-|Hc]; [right; now left|].
  apply in_app_or in Hc. destruct Hc as [Hc|Hc].
  - destruct Hsub as [->|(m & Hm & ->)]; [destruct Hc|].
    destruct Hc as [<-|Hc]; [right; right; now left|].
    right. right. right. right. eapply number_chars; eassumption.
  - destruct Hpar as [->|(k & Hk & ->)]; [destruct Hc|].
    destruct Hc as [<-|Hc]; [now left|].
    apply in_app_or in Hc. destruct Hc as [Hc|[<-|[]]].
    + right. right. right. right. eapply number_chars; eassumption.
    + right. right. right. now left.
Qed.

Lemma is_circled_spec (c : char) : is_circled c = true <-> circled c.
Proof.
  unfold is_circled, circled. rewrite andb_true_iff, !N.leb_le. tauto.
Qed.

(** C6. No circled numeral U+2460..U+2473 is left in a normalised text,
    whatever the input; and, the circled numerals not being decimal digits
    for [\d], none is part of a match returned by the reference extractor,
    whatever the input. *)
Theorem circled_numerals_removed :
  (forall s c, In c (clean_text s) -> ~ circled c) /\
  ((forall c, circled c -> isdecimal c = false) ->
   forall s w c, In w (get_relation_parts s) -> In c w -> ~ circled c).
Proof.
  split.
  - intros s c Hc Hcirc. apply clean_text_chars in Hc.
    apply is_circled_spec in Hcirc. destruct Hc as (_ & Hc). congruence.
  - intros Hdec s w c Hw Hc Hcirc. apply get_relation_parts_tokens in Hw.
    pose proof (Hdec c Hcirc) as Hd.
    destruct (ref_token_chars _ _ Hw Hc) as [->|[->|[->|[->|H]]]];
      try congruence;
      unfold circled, CIRCLED_LO, CIRCLED_HI, JE, JO, UI, HANG in Hcirc; lia.
Qed.

(** ** The matcher finds the longest token *)

Lemma rmatch_seq (r1 r2 : regex) st s k :
  rmatch (Seq r1 r2) st s k = rmatch r1 st s (fun st1 s1 => rmatch r2 st1 s1 k).
Proof. reflexivity. Qed.

Lemma rmatch_lit (a c : char) st s k :
  rmatch (Chr (Lit a)) st (c :: s) k = if (c =? a)%N then k (advance st) s else None.
Proof. reflexivity. Qed.

Lemma rmatch_opt (r : regex) st s k :
  rmatch (Opt r) st s k =
  match rmatch r st s k with Some st' => Some st' | None => k st s end.
Proof. reflexivity. Qed.

Lemma rmatch_accept_pos (r : regex) st s st' :
  rmatch r st s accept = Some st' -> mpos st <= mpos st'.
Proof.
  intros H. apply rmatch_sound in H. destruct H as (u & rest & st1 & _ & _ & P & H).
  inversion H; subst. lia.
Qed.

Lemma number_run (n : pystr) (x : char) (t : pystr) :
  number n -> isdecimal x = false ->
  take_while isdecimal (n ++ x :: t) = n /\
  drop_while isdecimal (n ++ x :: t) = x :: t.
Proof.
  intros (_ & Hn) Hx. induction Hn as [|c n Hc _ IH]; cbn.
  - now rewrite Hx.
  - rewrite Hc. destruct IH as (-> & ->). now split.
Qed.

Lemma digits_run (n t : pystr) :
  Forall (fun c => isdecimal c = true) n ->
  take_while isdecimal (n ++ t) = n ++ take_while isdecimal t /\
  drop_while isdecimal (n ++ t) = drop_while isdecimal t.
Proof.
  induction 1 as [|c n Hc _ IH]; cbn; [now split|].
  rewrite Hc. destruct IH as (-> & ->). now split.
Qed.

Section Longest.

(** The syllables of the pattern are not decimal digits. *)
Hypothesis JE_not_decimal : isdecimal JE = false.
Hypothesis JO_not_decimal : isdecimal JO = false.
Hypothesis HANG_not_decimal : isdecimal HANG = false.

Lemma lit_stops_run (a : char) (r : regex) :
  isdecimal a = false ->
  forall st c s, isdecimal c = true ->
                 rmatch (Seq (Chr (Lit a)) r) st (c :: s) accept = None.
Proof.
  intros Ha st c s Hc. rewrite rmatch_seq, rmatch_lit.
  destruct (N.eqb_spec c a); [congruence | reflexivity].
Qed.

Lemma par_match (k rest : pystr) (st : mstate) :
  number k ->
  rmatch par_pattern st (JE :: k ++ HANG :: rest) accept
  = Some (advance (advance_by (length k) (advance st))).
Proof.
  intros Hk. unfold par_pattern. rewrite rmatch_seq, rmatch_lit, N.eqb_refl.
  rewrite rmatch_seq, rmatch_plus_chr. rewrite many1_run.
  - change (in_class Digit) with isdecimal.
    destruct (number_run k HANG rest Hk HANG_not_decimal) as (-> & ->).
    destruct k as [|c k]; [now destruct Hk|].
    rewrite rmatch_lit, N.eqb_refl. reflexivity.
  - right. intros st1 c s Hc. destruct s as [|d s]; cbn in Hc |- *;
      destruct (N.eqb_spec c HANG); congruence.
Qed.

Lemma opt_par_total (st : mstate) (s : pystr) :
  exists st', rmatch (Opt par_pattern) st s accept = Some st' /\ mpos st <= mpos st'.
Proof.
  rewrite rmatch_opt. destruct (rmatch par_pattern st s accept) as [x|] eqn:E.
  - exists x. split; [reflexivity|]. now apply rmatch_accept_pos in E.
  - exists st. split; [reflexivity | lia].
Qed.

Lemma opt_par_take (par rest : pystr) (st : mstate) :
  par = [] \/ paragraph_suffix par ->
  exists st', rmatch (Opt par_pattern) st (par ++ rest) accept = Some st' /\
              mpos st + length par <= mpos st'.
Proof.
  intros [->|(k & Hk & ->)].
  - cbn [app length]. rewrite Nat.add_0_r. apply opt_par_total.
  - rewrite rmatch_opt. cbn [app]. rewrite <- app_assoc. cbn [app].
    rewrite par_match by assumption.
    eexists. split; [reflexivity|]. cbn. rewrite length_app. cbn. lia.
Qed.

Lemma suffixes_match (sub par rest : pystr) (st : mstate) :
  sub = [] \/ sub_article_suffix sub ->
  par = [] \/ paragraph_suffix par ->
  exists st',
    rmatch (Seq (Opt sub_pattern) (Opt par_pattern)) st (sub ++ par ++ rest) accept
    = Some st' /\
    mpos st + length sub + length par <= mpos st'.
Proof.
  intros Hsub Hpar. rewrite rmatch_seq, rmatch_opt.
  destruct Hsub as [->|(m & Hm & ->)].
  - cbn [app length]. rewrite Nat.add_0_r.
    destruct Hpar as [->|Hpar].
    + cbn [app length]. rewrite Nat.add_0_r.
      destruct (rmatch sub_pattern st rest
                  (fun st1 s1 => rmatch (Opt par_pattern) st1 s1 accept))
        as [x|] eqn:E.
      * exists x. split; [reflexivity|].
        change (rmatch (Seq sub_pattern (Opt par_pattern)) st rest accept = Some x) in E.
        now apply rmatch_accept_pos in E.
      * apply opt_par_total.
    + assert (E : rmatch sub_pattern st (par ++ rest)
                    (fun st1 s1 => rmatch (Opt par_pattern) st1 s1 accept) = None).
      { destruct Hpar as (k & _ & ->). reflexivity. }
      rewrite E. apply opt_par_take. now right.
  - unfold sub_pattern at 1. cbn [app]. rewrite rmatch_seq, rmatch_lit, N.eqb_refl.
    rewrite rmatch_plus_chr, many1_run.
    2:{ left. intros st1 s1 H. destruct (opt_par_total st1 s1) as (x & Hx & _).
        congruence. }
    change (in_class Digit) with isdecimal.
    destruct Hm as (Hne & Hm).
    destruct Hpar as [->|Hpar].
    + cbn [app length]. rewrite Nat.add_0_r.
      destruct (digits_run m rest Hm) as (-> & ->).
      destruct m as [|c m]; [congruence|]. cbn [app]. cbv beta.
      destruct (opt_par_total
                  (advance_by (S (length (m ++ take_while isdecimal rest))) (advance st))
                  (drop_while isdecimal rest)) as (x & -> & Hx).
      exists x. split; [reflexivity|]. cbn in Hx |- *. rewrite length_app in Hx. lia.
    + destruct Hpar as (k & Hk & ->). cbn [app].
      destruct (number_run m JE ((k ++ [HANG]) ++ rest) (conj Hne Hm) JE_not_decimal)
        as (-> & ->).
      destruct m as [|c m]; [congruence|].
      destruct (opt_par_take (JE :: k ++ [HANG]) rest
                  (advance_by (length (c :: m)) (advance st))) as (x & Hx & Hp).
      { right. exists k. now split. }
      cbn [app] in Hx. rewrite Hx. exists x. split; [reflexivity|].
      cbn in Hp |- *. lia.
Qed.

(** A token at the front of the subject is matched, and the match reaches
    at least as far as the token. *)
Lemma token_matched (w rest : pystr) (st : mstate) :
  ref_token w ->
  exists st', rmatch relation_part_pattern st (w ++ rest) accept = Some st' /\
              mpos st + length w <= mpos st'.
Proof.
  intros (n & sub & par & Hn & Hsub & Hpar & ->).
  unfold relation_part_pattern.
  change (Opt (Chr (Lit UI) $$ Plus (Chr Digit)))%regex with (Opt sub_pattern).
  change (Opt (Chr (Lit JE) $$ Plus (Chr Digit) $$ Chr (Lit HANG)))%regex
    with (Opt par_pattern).
  cbn [app]. rewrite rmatch_seq, rmatch_lit, N.eqb_refl.
  rewrite rmatch_seq, rmatch_plus_chr, many1_run.
  2:{ right. intros st1 c s Hc. now apply lit_stops_run. }
  change (in_class Digit) with isdecimal.
  rewrite <- app_assoc. cbn [app]. rewrite <- app_assoc.
  destruct (number_run n JO (sub ++ par ++ rest) Hn JO_not_decimal) as (-> & ->).
  destruct n as [|c n]; [now destruct Hn|].
  rewrite rmatch_seq, rmatch_lit, N.eqb_refl.
  destruct (suffixes_match sub par rest
              (advance (advance_by (length (c :: n)) (advance st))) Hsub Hpar)
    as (x & Hx & Hp).
  rewrite Hx. exists x. split; [reflexivity|].
  cbn in Hp |- *. rewrite !length_app. cbn. rewrite length_app. lia.
Qed.

Lemma ref_token_length (w : pystr) : ref_token w -> 3 <= length w.
Proof.
  intros (n & sub & par & (Hn & _) & _ & _ & ->).
  destruct n as [|c n]; [congruence|]. cbn. rewrite length_app. cbn. lia.
Qed.

Lemma no_token_in_nil : forall j, ~ token_at_front (skipn j (@nil char)).
Proof.
  intros j (w & rest & H & Hw). rewrite skipn_nil in H.
  apply ref_token_length in Hw. destruct w; [cbn in Hw; lia | discriminate].
Qed.

Lemma match_none (subject s : pystr) (pos : nat) :
  match_at relation_part_pattern subject pos s = None -> ~ token_at_front s.
Proof.
  unfold match_at. intros H (w & rest & -> & Hw).
  destruct (token_matched w rest (at_pos pos) Hw) as (st' & E & _).
  rewrite E in H. discriminate.
Qed.

(** A successful attempt returns the longest token at the front. *)
Lemma match_some (subject s : pystr) (pos : nat) (m : Match) :
  match_at relation_part_pattern subject pos s = Some m ->
  exists w rest,
    s = w ++ rest /\ ref_token w /\ m_end m - pos = length w /\
    forall w' rest', s = w' ++ rest' -> ref_token w' -> length w' <= length w.
Proof.
  intros H. destruct (match_at_sound _ _ _ _ _ H) as (w & rest & -> & L & Hend).
  exists w, rest. split; [reflexivity|]. split; [now apply lang_ref_token|].
  split; [lia|]. intros w' rest' Heq Hw'.
  unfold match_at in H. rewrite Heq in H.
  destruct (token_matched w' rest' (at_pos pos) Hw') as (st' & E & Hp).
  rewrite E in H. inversion H; subst m. cbn in Hend, Hp. lia.
Qed.

Lemma extracts_skip (c : char) (s : pystr) (l : list pystr) :
  ~ token_at_front (c :: s) -> extracts s l -> extracts (c :: s) l.
Proof.
  intros Hc H. inversion H as [s0 Hnone|s0 pre w rest l0 Hs Hw Hleft Hlong Hrest]; subst.
  - apply extracts_none. intros [|j]; [exact Hc | apply Hnone].
  - apply (@extracts_match (c :: pre ++ w ++ rest) (c :: pre) w rest l0);
      try assumption; [reflexivity|].
    intros [|j] Hj; [exact Hc|]. apply Hleft. cbn in Hj. lia.
Qed.

Lemma findall_extracts (subject : pystr) :
  forall fuel s pos,
    length s < fuel ->
    extracts s (findall_from fuel relation_part_pattern subject pos s).
Proof.
  induction fuel as [|f IH]; intros s pos Hf; [lia|].
  cbn [findall_from].
  destruct (match_at relation_part_pattern subject pos s) as [m|] eqn:E.
  - destruct (match_some _ _ _ _ E) as (w & rest & -> & Hw & Hn & Hlong).
    rewrite Hn. pose proof (ref_token_length _ Hw) as H3.
    rewrite firstn_app, Nat.sub_diag, firstn_all, firstn_O, app_nil_r.
    destruct (length w) as [|n] eqn:El; [lia|]. rewrite <- El.
    rewrite skipn_app, Nat.sub_diag, skipn_all, skipn_O. cbn [app].
    apply (@extracts_match (w ++ rest) [] w rest); try assumption.
    + reflexivity.
    + intros j Hj. cbn in Hj. lia.
    + rewrite El. exact Hlong.
    + apply IH. rewrite length_app in Hf. lia.
  - apply match_none in E. destruct s as [|c s].
    + apply extracts_none. apply no_token_in_nil.
    + apply extracts_skip; [exact E|]. apply IH. cbn in Hf. lia.
Qed.

Lemma app_eq_split {A} (a a' b b' : list A) :
  a ++ b = a' ++ b' -> length a = length a' -> a = a' /\ b = b'.
Proof.
  revert a'. induction a as [|x a IH]; intros [|x' a'] H Hl; cbn in *;
    try discriminate.
  - now split.
  - inversion H; subst. destruct (IH a' H2 ltac:(lia)) as (-> & ->). now split.
Qed.

Lemma skipn_prefix {A} (a b : list A) : skipn (length a) (a ++ b) = b.
Proof. now rewrite skipn_app, Nat.sub_diag, skipn_all, skipn_O. Qed.

Lemma extracts_functional (s : pystr) (l : list pystr) :
  extracts s l -> forall l', extracts s l' -> l = l'.
Proof.
  induction 1 as [s Hnone|s pre w rest l Hs Hw Hleft Hlong Hrest IH]; intros l' H'.
  - inversion H' as [|s0 pre' w' rest' l0 Hs' Hw' _ _ _]; subst; [reflexivity|].
    exfalso. apply (Hnone (length pre')). rewrite skipn_prefix.
    now exists w', rest'.
  - inversion H' as [s0 Hnone|s0 pre' w' rest' l0 Hs' Hw' Hleft' Hlong' Hrest']; subst.
    + exfalso. apply (Hnone (length pre)). rewrite skipn_prefix.
      now exists w, rest.
    + assert (Hlen : length pre = length pre').
      { destruct (Nat.lt_trichotomy (length pre) (length pre')) as [Hlt|[Heq|Hgt]];
          [exfalso | exact Heq | exfalso].
        - apply (Hleft' (length pre) Hlt). rewrite skipn_prefix. now exists w, rest.
        - apply (Hleft (length pre') Hgt). rewrite Hs', skipn_prefix.
          now exists w', rest'. }
      destruct (app_eq_split _ _ _ _ Hs' Hlen) as (-> & Hwr).
      assert (Hlw : length w = length w').
      { apply Nat.le_antisymm.
        - apply (Hlong' w rest); [now symmetry | assumption].
        - apply (Hlong w' rest'); assumption. }
      destruct (app_eq_split _ _ _ _ Hwr Hlw) as (-> & ->).
      f_equal. now apply IH.
Qed.

(** C7. On every text the extractor returns exactly the matches of the
    reference pattern (article number, optional sub-article suffix,
    optional paragraph suffix) found from left to right without overlap,
    each taken as far as it reaches, equal ones kept. *)
Theorem get_relation_parts_extracts (text : pystr) (l : list pystr) :
  extracts text l <-> get_relation_parts text = l.
Proof.
  rewrite get_relation_parts_findall. unfold findall.
  pose proof (findall_extracts text (S (length text)) text 0
                (Nat.lt_succ_diag_r _)) as H.
  split.
  - intros Hl. symmetry. now apply (extracts_functional text l Hl).
  - intros <-. exact H.
Qed.

End Longest.

(** ** The references of a chunk *)

Lemma relation_parts_tail (tags : list Tag) :
  exists chunks,
    parse_html_by_article_sections tags = Ok chunks /\
    Forall2 (fun c pe =>
               relation_parts c
               = skipn 1 (flat_map
                            (fun t => get_relation_parts (clean_text (tag_content t)))
                            (span (fst pe) (snd pe) tags)))
      chunks (chunk_spans tags).
Proof.
  destruct (parse_spans tags) as (chunks & Hp & Hc).
  exists chunks. split; [exact Hp|].
  revert Hc. apply Forall2_impl. intros c [p e] (Hc & _). cbn [fst snd] in *.
  rewrite Hc. reflexivity.
Qed.

(** * Further properties *)

(** ** The shape of a normalised text *)

Lemma squeeze_space_chars (s : pystr) :
  forall b c, In c (squeeze b s) -> isspace c = true -> c = SP.
Proof.
  induction s as [|d s IH]; intros b c H Hc; [destruct H|].
  cbn [squeeze] in H. destruct (isspace d) eqn:Ed.
  - destruct b; [now apply (IH true)|].
    destruct H as [<-|H]; [reflexivity | now apply (IH true)].
  - destruct H as [<-|H]; [congruence | now apply (IH false)].
Qed.

Lemma squeeze_in_run_head (s : pystr) :
  match squeeze true s with
  | [] => True
  | c :: _ => isspace c = false
  end.
Proof.
  induction s as [|d s IH]; cbn [squeeze]; [exact I|].
  destruct (isspace d) eqn:Ed; [exact IH | exact Ed].
Qed.

Lemma squeeze_no_adjacent (s : pystr) :
  forall b, no_adjacent_spaces (squeeze b s).
Proof.
  induction s as [|d s IH]; intros b; [exact I|].
  cbn [squeeze]. destruct (isspace d) eqn:Ed.
  - destruct b; [apply IH|]. cbn [no_adjacent_spaces]. split; [|apply IH].
    pose proof (squeeze_in_run_head s) as Hh.
    destruct (squeeze true s) as [|e r]; [exact I|]. intros (_ & He). congruence.
  - cbn [no_adjacent_spaces]. split; [|apply IH].
    destruct (squeeze false s) as [|e r]; [exact I|]. intros (Hd & _). congruence.
Qed.

Lemma clean_text_shape_parts (s : pystr) :
  (forall c, In c (clean_text s) -> c <> NL /\ (isspace c = true -> c = SP)) /\
  no_adjacent_spaces (clean_text s).
Proof.
  split.
  - intros c Hc. split; [now apply (clean_text_chars s)|].
    rewrite clean_text_steps in Hc. intros Hs.
    eapply squeeze_space_chars; eassumption.
  - rewrite clean_text_steps. apply squeeze_no_adjacent.
Qed.

(** X1. A normalised text holds no newline; its only white space
    characters are spaces, and no two white space characters follow each
    other. *)
Theorem clean_text_shape (s : pystr) :
  (forall c, In c (clean_text s) -> c <> NL /\ (isspace c = true -> c = SP)) /\
  no_adjacent_spaces (clean_text s).
Proof. apply clean_text_shape_parts. Qed.

Lemma squeeze_length (s : pystr) :
  forall b, length (squeeze b s) <= length s.
Proof.
  induction s as [|d s IH]; intros b; cbn [squeeze length]; [lia|].
  destruct (isspace d); [destruct b|]; cbn [length];
    try (pose proof (IH true)); try (pose proof (IH false)); lia.
Qed.

(** X2. Normalisation never makes a text longer. *)
Theorem clean_text_length (s : pystr) :
  length (clean_text s) <= length s.
Proof.
  rewrite clean_text_steps.
  pose proof (squeeze_length
                (filter (fun c => negb (is_circled c)) (map newline_to_space s)) false).
  pose proof (filter_length_le (fun c => negb (is_circled c)) (map newline_to_space s)).
  rewrite length_map in *. lia.
Qed.

Lemma squeeze_normal (s : pystr) :
  (forall c, In c s -> isspace c = true -> c = SP) ->
  no_adjacent_spaces s ->
  squeeze false s = s /\ (match s with
                          | [] => True
                          | c :: _ => isspace c = false
                          end -> squeeze true s = s).
Proof.
  induction s as [|d s IH]; intros Hsp Hadj; [now split|].
  cbn [no_adjacent_spaces] in Hadj. destruct Hadj as (Hd & Hadj).
  destruct (IH (fun c Hc => Hsp c (or_intror Hc)) Hadj) as (IHf & IHt).
  cbn [squeeze]. destruct (isspace d) eqn:Ed.
  - split; [|discriminate].
    rewrite (Hsp d (or_introl eq_refl) Ed). f_equal. apply IHt.
    destruct s as [|e r]; [exact I|].
    destruct (isspace e) eqn:Ee; [exfalso; now apply Hd | reflexivity].
  - split; [|intros _]; now rewrite IHf.
Qed.

(** X3. The texts that normalisation leaves unchanged are exactly the
    texts in normal form, and these are exactly the normalised texts. *)
Theorem clean_text_fixed_points (s : pystr) :
  (clean_text s = s <-> normal_text s) /\
  ((exists t, clean_text t = s) <-> normal_text s).
Proof.
  assert (Himg : forall t, normal_text (clean_text t)).
  { intros t. destruct (clean_text_shape_parts t) as (Hc & Hadj).
    split; [|exact Hadj]. intros c Hin. destruct (Hc c Hin) as (Hnl & Hsp).
    split; [exact Hnl|]. split; [|exact Hsp].
    intros Hcirc. apply is_circled_spec in Hcirc.
    apply clean_text_chars in Hin. destruct Hin as (_ & Hin). congruence. }
  assert (Hfix : normal_text s -> clean_text s = s).
  { intros (Hc & Hadj). rewrite clean_text_steps.
    rewrite map_id_on.
    - rewrite filter_all.
      + apply squeeze_normal; [|exact Hadj]. intros c Hin. now apply Hc.
      + apply Forall_forall. intros c Hin. apply negb_true_iff.
        destruct (is_circled c) eqn:E; [|reflexivity].
        apply is_circled_spec in E. now apply Hc in Hin.
    - apply Forall_forall. intros c Hin. apply newline_to_space_fixed.
      now apply Hc. }
  split; split.
  - intros <-. apply Himg.
  - exact Hfix.
  - intros (t & <-). apply Himg.
  - intros H. exists s. now apply Hfix.
Qed.

Lemma plain_char_squeeze (s : pystr) :
  forall b, filter plain_char (squeeze b s) = filter plain_char s.
Proof.
  assert (Hsp : plain_char SP = false).
  { unfold plain_char. rewrite N.eqb_refl. cbn. now rewrite !andb_false_r. }
  induction s as [|d s IH]; intros b; [reflexivity|].
  cbn [squeeze filter]. destruct (isspace d) eqn:Ed.
  - assert (Hd : plain_char d = false) by (unfold plain_char; now rewrite Ed).
    rewrite Hd. destruct b; [apply IH|]. cbn [filter]. rewrite Hsp. apply IH.
  - cbn [filter]. now rewrite IH.
Qed.

Lemma filter_filter_weaker {A} (f g : A -> bool) (l : list A) :
  (forall x, f x = true -> g x = true) ->
  filter f (filter g l) = filter f l.
Proof.
  intros H. induction l as [|x l IH]; [reflexivity|]. cbn [filter].
  destruct (g x) eqn:Eg; cbn [filter].
  - now rewrite IH.
  - destruct (f x) eqn:Ef; [|exact IH]. apply H in Ef. congruence.
Qed.

Lemma plain_char_special (c : char) :
  c = NL \/ c = SP -> plain_char c = false.
Proof.
  unfold plain_char. intros [->| ->]; rewrite N.eqb_refl; cbn;
    now rewrite ?andb_false_r.
Qed.

(** X4. Normalisation only touches white space, newlines, spaces and
    circled numerals: all other characters of the input are kept, in the
    same order, and none is added. *)
Theorem clean_text_keeps_plain (s : pystr) :
  filter plain_char (clean_text s) = filter plain_char s.
Proof.
  rewrite clean_text_steps, plain_char_squeeze, filter_filter_weaker.
  - induction s as [|c s IH]; [reflexivity|]. cbn [map filter]. rewrite IH.
    unfold newline_to_space. destruct (N.eqb_spec c NL) as [->|Hne]; [|reflexivity].
    now rewrite !plain_char_special by auto.
  - intros c Hc. unfold plain_char in Hc.
    destruct (is_circled c); [|reflexivity].
    cbn in Hc. now rewrite andb_false_r in Hc.
Qed.

(** ** Where the matches lie *)


Lemma splits_cons (c : char) (s : pystr) (l : list pystr) :
  splits_into s l -> splits_into (c :: s) l.
Proof.
  intros H. inversion H as [tail|gap m rest ms Hr]; subst.
  - constructor.
  - apply (@splits_next (c :: gap) m rest ms Hr).
Qed.

Lemma findall_from_splits (r : regex) (subject : pystr) :
  forall fuel pos s, splits_into s (findall_from fuel r subject pos s).
Proof.
  induction fuel as [|f IH]; intros pos s; [constructor|].
  cbn [findall_from].
  destruct (match_at r subject pos s) as [m|] eqn:E.
  - destruct (match_at_sound _ _ _ _ _ E) as (u & rest & -> & _ & Hend).
    rewrite Hend. replace (pos + length u - pos) with (length u) by lia.
    rewrite firstn_app, Nat.sub_diag, firstn_all, firstn_O, app_nil_r.
    destruct (length u) as [|n] eqn:El.
    + destruct u; [|discriminate]. cbn [app].
      destruct rest as [|c rest].
      * apply (@splits_next [] [] [] []). constructor.
      * apply (@splits_next [] [] (c :: rest)). apply splits_cons. apply IH.
    + rewrite <- El, skipn_app, Nat.sub_diag, skipn_all, skipn_O. cbn [app].
      apply (@splits_next [] u rest). apply IH.
  - destruct s as [|c s]; [constructor|]. apply splits_cons. apply IH.
Qed.

Lemma splits_total_length (s : pystr) (l : list pystr) :
  splits_into s l -> list_sum (map (@length char) l) <= length s.
Proof.
  unfold list_sum.
  induction 1 as [tail|gap m rest ms _ IH]; cbn [map fold_right]; [lia|].
  rewrite !length_app. lia.
Qed.

Lemma splits_In (s : pystr) (l : list pystr) :
  splits_into s l -> forall w c, In w l -> In c w -> In c s.
Proof.
  induction 1 as [tail|gap m rest ms _ IH]; intros w c Hw Hc; [destruct Hw|].
  apply in_or_app. right. apply in_or_app.
  destruct Hw as [<-|Hw]; [now left | right; eauto].
Qed.

Lemma get_relation_parts_splits (text : pystr) :
  splits_into text (get_relation_parts text).
Proof. rewrite get_relation_parts_findall. apply findall_from_splits. Qed.

(** X5. The matches returned by the extractor lie in the text one after
    the other, in the order returned and without overlap; each is a
    reference token, so at least three characters long, and a text of n
    characters yields at most n/3 matches. *)
Theorem get_relation_parts_in_text (text : pystr) :
  splits_into text (get_relation_parts text) /\
  Forall ref_token (get_relation_parts text) /\
  Forall (fun w => 3 <= length w) (get_relation_parts text) /\
  3 * length (get_relation_parts text) <= length text.
Proof.
  pose proof (get_relation_parts_splits text) as Hs.
  assert (Ht : Forall ref_token (get_relation_parts text)).
  { apply Forall_forall. intros w. apply get_relation_parts_tokens. }
  assert (H3 : Forall (fun w => 3 <= length w) (get_relation_parts text)).
  { revert Ht. apply Forall_impl. intros w. apply ref_token_length. }
  repeat split; try assumption.
  apply splits_total_length in Hs. revert Hs H3.
  generalize (get_relation_parts text) as l. intros l Hs H3.
  assert (3 * length l <= list_sum (map (@length char) l)); [|lia].
  clear Hs. unfold list_sum.
  induction H3 as [|w l Hw _ IH]; cbn [map fold_right length] in *; lia.
Qed.

(** X6. A text without the syllable that opens an article number, or
    without the one that closes it, holds no reference. *)
Theorem no_syllable_no_reference (text : pystr) :
  ~ In JE text \/ ~ In JO text -> get_relation_parts text = [].
Proof.
  intros H. pose proof (get_relation_parts_splits text) as Hs.
  pose proof (get_relation_parts_tokens text) as Ht.
  destruct (get_relation_parts text) as [|w l]; [reflexivity|]. exfalso.
  specialize (Ht w (or_introl eq_refl)). rename Ht into Hw.
  destruct Hw as (n & sub & par & _ & _ & _ & ->).
  destruct H as [H|H]; apply H;
    apply (splits_In _ _ Hs (JE :: n ++ JO :: sub ++ par)); try (now left).
  right. apply in_or_app. right. now left.
Qed.

(** ** The label of a chunk *)

Lemma lang_article_label (w : pystr) : lang article_number w -> article_label w.
Proof.
  unfold article_number. intros H.
  apply lang_seq_inv in H. destruct H as (a & w1 & -> & Ha & H).
  apply lang_lit_inv in Ha. subst a.
  apply lang_seq_inv in H. destruct H as (n & w2 & -> & Hn & H).
  apply lang_digits in Hn.
  apply lang_seq_inv in H. destruct H as (b & sub & -> & Hb & Hsub).
  apply lang_lit_inv in Hb. subst b.
  exists n, sub. split; [assumption|]. split; [|reflexivity].
  apply lang_opt_inv in Hsub. destruct Hsub as [->|H]; [now left | right].
  apply lang_seq_inv in H. destruct H as (a & m & -> & Ha & Hm).
  apply lang_lit_inv in Ha. subst a. apply lang_digits in Hm.
  exists m. now split.
Qed.

(** The label of an article start is the part of its stripped text that
    the article pattern matched. *)
Lemma label_of_spec (t : Tag) :
  is_article_start t = true ->
  exists rest, get_text [] true t = label_of t ++ rest /\
               lang article_number (label_of t).
Proof.
  unfold is_article_start. intros H.
  destruct (re_match article_start_pattern (get_text [] true t)) as [m|] eqn:E;
    [|discriminate].
  destruct (article_label_ok _ _ E) as (lab & Hlab).
  unfold label_of. rewrite Hlab. revert Hlab.
  generalize (get_text [] true t) as text. intros text.
  unfold group1, re_match, match_at, article_label_pattern.
  remember article_number as an. cbn [rmatch at_pos mpos Nat.eqb].
  destruct (rmatch an (at_pos 0) text
              (fun st1 s1 => accept (close_group 0 st1) s1)) as [st'|] eqn:Er;
    [|discriminate].
  apply rmatch_sound in Er. destruct Er as (u & rest & st1 & -> & L & P & K).
  cbn [at_pos mpos] in P.
  unfold accept in K. inversion K; subst st'.
  cbn [m_group1 m_string mgroup1 close_group mpos].
  intros Hlab. inversion Hlab; subst lab. exists rest.
  unfold substring. rewrite P. cbn [mpos skipn].
  rewrite Nat.sub_0_r, Nat.add_0_l, firstn_app, Nat.sub_diag, firstn_all, firstn_O,
    app_nil_r.
  now split.
Qed.

Lemma entries_labels (tags : list Tag) :
  forall i e,
    In e (entries_from i tags) ->
    exists t, nth_error tags (fst e - i) = Some t /\ i <= fst e /\
              is_article_start t = true /\ snd e = label_of t.
Proof.
  induction tags as [|t tags IH]; intros i e H; [destruct H|].
  cbn [entries_from] in H.
  assert (Hrest : In e (entries_from (S i) tags) ->
                  exists t', nth_error (t :: tags) (fst e - i) = Some t' /\
                             i <= fst e /\ is_article_start t' = true /\
                             snd e = label_of t').
  { intros He. apply IH in He. destruct He as (t' & Hn & Hle & Ht & Hl).
    exists t'. replace (fst e - i) with (S (fst e - S i)) by lia.
    repeat split; try assumption. lia. }
  destruct (is_article_start t) eqn:Et; [|now apply Hrest].
  destruct H as [<-|H]; [|now apply Hrest].
  exists t. cbn [fst snd]. rewrite Nat.sub_diag. repeat split; auto.
Qed.

Lemma chunks_from_labels (tags : list Tag) (entries : list (nat * pystr)) :
  Forall (fun e => exists t, nth_error tags (fst e) = Some t /\
                             is_article_start t = true /\ snd e = label_of t)
    entries ->
  Forall2 (fun c pe => exists t, nth_error tags (fst pe) = Some t /\
                                 is_article_start t = true /\
                                 article_id c = label_of t)
    (chunks_from tags entries) (spans_of (length tags) (map fst entries)).
Proof.
  induction 1 as [|[p l] rest He _ IH]; [constructor|].
  cbn [chunks_from map spans_of fst]. constructor; [|exact IH].
  exact He.
Qed.

Lemma parse_labels (tags : list Tag) :
  exists chunks,
    parse_html_by_article_sections tags = Ok chunks /\
    Forall2 (fun c pe => exists t, nth_error tags (fst pe) = Some t /\
                                   is_article_start t = true /\
                                   article_id c = label_of t)
      chunks (chunk_spans tags).
Proof.
  exists (chunks_from tags (entries_from 0 tags)). split; [apply parse_ok|].
  unfold chunk_spans, markers. rewrite <- entries_markers.
  apply chunks_from_labels. apply Forall_forall. intros e He.
  apply entries_labels in He. destruct He as (t & Hn & _ & Ht & Hl).
  rewrite Nat.sub_0_r in Hn. eauto.
Qed.

(** X7. The [article_id] of a chunk is an article label (the opening
    syllable, digits, the closing syllable, and possibly a sub-article
    suffix) and the stripped text of the chunk's first tag begins with
    it. *)
Theorem article_id_is_label (tags : list Tag) :
  exists chunks,
    parse_html_by_article_sections tags = Ok chunks /\
    Forall2 (fun c pe =>
               exists t rest,
                 nth_error tags (fst pe) = Some t /\
                 get_text [] true t = article_id c ++ rest /\
                 article_label (article_id c))
      chunks (chunk_spans tags).
Proof.
  destruct (parse_labels tags) as (chunks & Hp & Hc).
  exists chunks. split; [exact Hp|].
  revert Hc. apply Forall2_impl. intros c pe (t & Hn & Ht & ->).
  destruct (label_of_spec t Ht) as (rest & Htext & L).
  exists t, rest. repeat split; try assumption. now apply lang_article_label.
Qed.

(** ** Nothing is lost between the chunks *)

Lemma Forall2_flat_map {A B C} (f : A -> list C) (g : B -> list C)
    (l1 : list A) (l2 : list B) :
  Forall2 (fun a b => f a = g b) l1 l2 -> flat_map f l1 = flat_map g l2.
Proof. induction 1 as [|a b l1 l2 H _ IH]; cbn; congruence. Qed.

Lemma Forall2_map_eq {A B C} (f : A -> C) (g : B -> C)
    (l1 : list A) (l2 : list B) :
  Forall2 (fun a b => f a = g b) l1 l2 -> map f l1 = map g l2.
Proof. induction 1 as [|a b l1 l2 H _ IH]; cbn; congruence. Qed.

Lemma map_flat_map {A B C} (f : B -> C) (g : A -> list B) (l : list A) :
  map f (flat_map g l) = flat_map (fun a => map f (g a)) l.
Proof.
  induction l as [|a l IH]; cbn; [reflexivity|]. now rewrite map_app, IH.
Qed.

Lemma body_spans (tags : list Tag) :
  body tags = flat_map (fun pe => span (fst pe) (snd pe) tags) (chunk_spans tags).
Proof.
  unfold body, chunk_spans. apply spans_tile;
    [apply markers_from_sorted | apply markers_bound].
Qed.

Lemma preamble_body (tags : list Tag) : tags = preamble tags ++ body tags.
Proof. unfold preamble, body. symmetry. apply firstn_skipn. Qed.

(** X8. The identifiers of all chunks, chunk after chunk, are the
    identifiers of the tags from the first article start on, in document
    order: every tag outside the preamble is recorded exactly once. *)
Theorem paragraph_ids_cover (tags : list Tag) :
  exists chunks,
    parse_html_by_article_sections tags = Ok chunks /\
    flat_map paragraph_ids chunks = map (tag_get_id (py "unknown")) (body tags) /\
    map (tag_get_id (py "unknown")) tags
    = map (tag_get_id (py "unknown")) (preamble tags) ++ flat_map paragraph_ids chunks.
Proof.
  destruct (parse_spans tags) as (chunks & Hp & Hc).
  exists chunks. split; [exact Hp|].
  assert (H : flat_map paragraph_ids chunks = map tag_ident (body tags)).
  { rewrite body_spans, map_flat_map. apply Forall2_flat_map.
    revert Hc. apply Forall2_impl. intros c pe (-> & _). reflexivity. }
  split; [exact H|]. rewrite H.
  change (tag_get_id (py "unknown")) with tag_ident.
  rewrite <- map_app. now rewrite <- preamble_body.
Qed.

Lemma str_join_app (sep : pystr) (l1 l2 : list pystr) :
  l1 <> [] -> l2 <> [] ->
  str_join sep (l1 ++ l2) = str_join sep l1 ++ sep ++ str_join sep l2.
Proof.
  intros H1 H2. induction l1 as [|p l1 IH]; [congruence|].
  destruct l1 as [|q l1].
  - destruct l2 as [|r l2]; [congruence | reflexivity].
  - change (str_join sep ((p :: q :: l1) ++ l2))
      with (p ++ sep ++ str_join sep ((q :: l1) ++ l2)).
    rewrite IH by discriminate.
    change (str_join sep (p :: q :: l1)) with (p ++ sep ++ str_join sep (q :: l1)).
    now rewrite <- !app_assoc.
Qed.

Lemma str_join_concat (sep : pystr) (ls : list (list pystr)) :
  Forall (fun l => l <> []) ls ->
  str_join sep (map (str_join sep) ls) = str_join sep (concat ls).
Proof.
  induction 1 as [|l ls Hl Hls IH]; [reflexivity|].
  destruct ls as [|l' ls].
  - cbn. now rewrite app_nil_r.
  - change (str_join sep (map (str_join sep) (l :: l' :: ls)))
      with (str_join sep l ++ sep ++ str_join sep (map (str_join sep) (l' :: ls))).
    rewrite IH.
    change (concat (l :: l' :: ls)) with (l ++ concat (l' :: ls)).
    rewrite (str_join_app sep l (concat (l' :: ls))); [reflexivity | assumption|].
    inversion Hls; subst. destruct l'; [congruence | discriminate].
Qed.

Lemma Forall2_right {A B} (R : A -> B -> Prop) (P : B -> Prop)
    (l1 : list A) (l2 : list B) :
  (forall a b, R a b -> P b) -> Forall2 R l1 l2 -> Forall P l2.
Proof. intros H. induction 1; constructor; eauto. Qed.

(** X9. Joining the [content] of all chunks with newlines gives the
    newline-joined texts of the tags from the first article start on:
    chunking neither loses nor adds text. *)
Theorem contents_cover (tags : list Tag) :
  exists chunks,
    parse_html_by_article_sections tags = Ok chunks /\
    str_join [NL] (map content chunks)
    = str_join [NL] (map tag_content (body tags)).
Proof.
  destruct (parse_spans tags) as (chunks & Hp & Hc).
  exists chunks. split; [exact Hp|].
  rewrite body_spans, map_flat_map, flat_map_concat_map.
  rewrite <- str_join_concat.
  - f_equal. rewrite map_map. apply Forall2_map_eq.
    revert Hc. apply Forall2_impl. intros c pe (-> & _). reflexivity.
  - apply Forall_map.
    apply (Forall2_right _ (fun pe => map tag_content (span (fst pe) (snd pe) tags) <> [])
             _ _) in Hc; [exact Hc|].
    intros c [p e] (_ & Hlt) Hnil. cbn [fst snd] in *.
    apply (f_equal (@length pystr)) in Hnil.
    rewrite length_map, span_length in Hnil by lia. cbn in Hnil. lia.
Qed.

(** ** Segmenting a document in two parts *)

Lemma entries_from_app (a b : list Tag) :
  forall i, entries_from i (a ++ b)
            = entries_from i a ++ entries_from (i + length a) b.
Proof.
  induction a as [|t a IH]; intros i; cbn [app entries_from length].
  - now rewrite Nat.add_0_r.
  - rewrite IH. replace (S i + length a) with (i + S (length a)) by lia.
    now destruct (is_article_start t).
Qed.

Lemma entries_from_shift (b : list Tag) (k : nat) :
  forall i, entries_from (i + k) b = map (shift_entry k) (entries_from i b).
Proof.
  induction b as [|t b IH]; intros i; cbn [entries_from map]; [reflexivity|].
  change (S (i + k)) with (S i + k). rewrite IH.
  now destruct (is_article_start t).
Qed.

Lemma span_right {A} (a b : list A) (p e : nat) :
  span (p + length a) (e + length a) (a ++ b) = span p e b.
Proof.
  unfold span. replace (e + length a - (p + length a)) with (e - p) by lia.
  rewrite skipn_app. replace (p + length a - length a) with p by lia.
  now rewrite skipn_all2 by lia.
Qed.

Lemma span_left {A} (a b : list A) (p e : nat) :
  e <= length a -> span p e (a ++ b) = span p e a.
Proof.
  intros He. unfold span. rewrite skipn_app, firstn_app, length_skipn.
  replace (e - p - (length a - p)) with 0 by lia.
  now rewrite firstn_O, app_nil_r.
Qed.

Lemma chunk_of_right (a b : list Tag) (l : pystr) (p e : nat) :
  chunk_of (a ++ b) l (p + length a) (e + length a) = chunk_of b l p e.
Proof. unfold chunk_of. now rewrite span_right. Qed.

Lemma chunk_of_left (a b : list Tag) (l : pystr) (p e : nat) :
  e <= length a -> chunk_of (a ++ b) l p e = chunk_of a l p e.
Proof. intros He. unfold chunk_of. now rewrite span_left. Qed.

Lemma next_start_shift (a b : list Tag) (entries : list (nat * pystr)) :
  next_start (a ++ b) (map (shift_entry (length a)) entries)
  = next_start b entries + length a.
Proof.
  destruct entries as [|[e l] r]; cbn; [rewrite length_app; lia | reflexivity].
Qed.

Lemma chunks_from_right (a b : list Tag) (entries : list (nat * pystr)) :
  chunks_from (a ++ b) (map (shift_entry (length a)) entries) = chunks_from b entries.
Proof.
  induction entries as [|[p l] rest IH]; [reflexivity|].
  cbn [map chunks_from shift_entry fst snd].
  now rewrite next_start_shift, chunk_of_right, IH.
Qed.

Lemma chunks_from_left (a b : list Tag) (e2 : list (nat * pystr)) :
  next_start (a ++ b) e2 = length a ->
  forall e1,
    well_spaced a e1 ->
    chunks_from (a ++ b) (e1 ++ e2) = chunks_from a e1 ++ chunks_from (a ++ b) e2.
Proof.
  intros H2. induction e1 as [|[p l] rest IH]; intros Hw; [reflexivity|].
  destruct Hw as (Hlt & Hle & Hw). cbn [app chunks_from].
  assert (E : next_start (a ++ b) (rest ++ e2) = next_start a rest).
  { destruct rest as [|[e l'] r]; [exact H2 | reflexivity]. }
  rewrite E, chunk_of_left by assumption. now rewrite IH.
Qed.

(** X10. Tags that open no article, put in front of a document, do not
    change its chunks: the segmenter ignores whatever comes before the
    first article. *)
Theorem preamble_ignored (a b : list Tag) :
  (forall t, In t a -> is_article_start t = false) ->
  parse_html_by_article_sections (a ++ b) = parse_html_by_article_sections b.
Proof.
  intros H. rewrite !parse_ok. f_equal.
  rewrite entries_from_app, entries_none by now apply Forall_forall.
  cbn [app]. rewrite (entries_from_shift b (length a) 0).
  apply chunks_from_right.
Qed.

(** X11. A document cut in front of an article start is segmented part by
    part: its chunks are those of the first part followed by those of the
    second. *)
Theorem parse_app (a b : list Tag) (t : Tag) :
  is_article_start t = true ->
  exists ca cb,
    parse_html_by_article_sections a = Ok ca /\
    parse_html_by_article_sections (t :: b) = Ok cb /\
    parse_html_by_article_sections (a ++ t :: b) = Ok (ca ++ cb).
Proof.
  intros Ht.
  exists (chunks_from a (entries_from 0 a)),
         (chunks_from (t :: b) (entries_from 0 (t :: b))).
  rewrite !parse_ok. repeat split. f_equal.
  rewrite entries_from_app, (entries_from_shift (t :: b) (length a) 0).
  rewrite chunks_from_left.
  - now rewrite chunks_from_right.
  - cbn [entries_from]. rewrite Ht. reflexivity.
  - now apply entries_well_spaced.
Qed.

(** X12. Every entry of [relation_parts] is a reference token, and it is
    one of the matches found in the normalised text of a tag of the
    chunk. *)
Theorem relation_parts_entries (tags : list Tag) :
  exists chunks,
    parse_html_by_article_sections tags = Ok chunks /\
    Forall2 (fun c pe =>
               forall w, In w (relation_parts c) ->
                 ref_token w /\
                 exists t, In t (span (fst pe) (snd pe) tags) /\
                           In w (get_relation_parts (clean_text (tag_content t))))
      chunks (chunk_spans tags).
Proof.
  destruct (relation_parts_tail tags) as (chunks & Hp & Hc).
  exists chunks. split; [exact Hp|].
  revert Hc. apply Forall2_impl. intros c pe Hc w Hw.
  rewrite Hc in Hw.
  assert (Hin : forall (l : list pystr), In w (skipn 1 l) -> In w l)
    by (intros [|x l] H; [exact H | now right]).
  apply Hin in Hw. apply in_flat_map in Hw.
  destruct Hw as (t & Ht & Hw). split; [|eauto].
  now apply get_relation_parts_tokens in Hw.
Qed.

(** ** The label is the longest one *)

Section LongestLabel.

Hypothesis JO_not_decimal : isdecimal JO = false.




End LongestLabel.

(** ** The dropped match and the label *)

Lemma single_string_text (t : Tag) (x : pystr) (sep : pystr) :
  tag_strings t = [x] -> get_text sep true t = str_strip x.
Proof.
  intros H. unfold get_text, all_strings. rewrite H. cbn [map filter].
  now destruct (str_strip x).
Qed.

Lemma replace_keeps_front (new u r : pystr) :
  Forall (fun c => c <> LT) u ->
  str_replace (py "<br />") new (u ++ r) = u ++ str_replace (py "<br />") new r.
Proof.
  unfold str_replace. induction 1 as [|c u Hc _ IH]; [reflexivity|].
  cbn [app length replace_from].
  replace (starts_with (py "<br />") (c :: u ++ r)) with false; [now rewrite IH|].
  change (py "<br />") with [LT; 98; 114; 32; 47; 62]%N. cbn [starts_with].
  destruct (N.eqb_spec LT c); [congruence | reflexivity].
Qed.

Lemma squeeze_keeps_front (u v : pystr) :
  Forall (fun c => isspace c = false) u ->
  squeeze false (u ++ v) = u ++ squeeze false v.
Proof.
  induction 1 as [|c u Hc _ IH]; [reflexivity|].
  cbn [app squeeze]. now rewrite Hc, IH.
Qed.

Lemma clean_text_keeps_front (u r : pystr) :
  Forall stays_in_front u -> clean_text (u ++ r) = u ++ clean_text r.
Proof.
  intros H. rewrite !clean_text_steps, map_app, filter_app.
  rewrite (map_id_on newline_to_space u).
  - rewrite (filter_all _ u).
    + apply squeeze_keeps_front. revert H. apply Forall_impl.
      intros c Hc. apply Hc.
    + revert H. apply Forall_impl. intros c (_ & Hc & _). now rewrite Hc.
  - revert H. apply Forall_impl. intros c (_ & _ & Hc & _).
    now apply newline_to_space_fixed.
Qed.

Lemma article_label_token (w : pystr) : article_label w -> ref_token w.
Proof.
  intros (n & sub & Hn & Hsub & ->). exists n, sub, [].
  split; [exact Hn|]. split; [exact Hsub|].
  split; [now left | now rewrite app_nil_r].
Qed.

Lemma Forall2_and {A B} (R1 R2 : A -> B -> Prop) (l1 : list A) (l2 : list B) :
  Forall2 R1 l1 l2 -> Forall2 R2 l1 l2 ->
  Forall2 (fun a b => R1 a b /\ R2 a b) l1 l2.
Proof.
  induction 1 as [|a b l1 l2 H _ IH]; intros H2; inversion H2; subst;
    constructor; auto.
Qed.

Section SelfLabel.

(** What the interpreter's tables must grant: the syllables of the
    patterns are neither digits nor white space, and a decimal digit is
    not white space, not a circled numeral, not a newline and not ["<"]. *)
Hypothesis JE_not_decimal : isdecimal JE = false.
Hypothesis JO_not_decimal : isdecimal JO = false.
Hypothesis HANG_not_decimal : isdecimal HANG = false.
Hypothesis JE_not_space : isspace JE = false.
Hypothesis JO_not_space : isspace JO = false.
Hypothesis UI_not_space : isspace UI = false.
Hypothesis digits_stay : forall c, isdecimal c = true -> stays_in_front c.

Lemma number_stays (n : pystr) : number n -> Forall stays_in_front n.
Proof.
  intros (_ & H). revert H. apply Forall_impl. exact digits_stay.
Qed.

Lemma article_label_stays (w : pystr) :
  article_label w -> Forall stays_in_front w.
Proof.
  intros (n & sub & Hn & Hsub & ->).
  assert (Hje : stays_in_front JE) by (repeat split; auto; discriminate).
  assert (Hjo : stays_in_front JO) by (repeat split; auto; discriminate).
  assert (Hui : stays_in_front UI) by (repeat split; auto; discriminate).
  constructor; [exact Hje|]. apply Forall_app. split; [now apply number_stays|].
  constructor; [exact Hjo|].
  destruct Hsub as [->|(m & Hm & ->)]; [constructor|].
  constructor; [exact Hui | now apply number_stays].
Qed.

(** The first match in a text that begins with a token begins with that
    token. *)
Lemma first_match_extends (u r : pystr) :
  ref_token u ->
  exists z l, get_relation_parts (u ++ r) = (u ++ z) :: l.
Proof.
  intros Hu. rewrite get_relation_parts_findall. unfold findall.
  cbn [findall_from]. unfold match_at.
  destruct (token_matched JE_not_decimal JO_not_decimal HANG_not_decimal
              u r (at_pos 0) Hu) as (st' & E & Hp).
  rewrite E. cbn [m_end at_pos mpos] in *. rewrite Nat.sub_0_r.
  rewrite firstn_app, (firstn_all2 u) by lia. eauto.
Qed.

(** X14. With tables as above: when the first tag of a chunk holds a
    single text string, the first match found in the chunk, the one that
    [relation_parts] leaves out, begins with the chunk's [article_id]. *)
Theorem dropped_match_is_label (tags : list Tag) :
  exists chunks,
    parse_html_by_article_sections tags = Ok chunks /\
    Forall2 (fun c pe =>
               forall t x,
                 nth_error tags (fst pe) = Some t ->
                 tag_strings t = [x] ->
                 exists z l,
                   flat_map (fun t => get_relation_parts (clean_text (tag_content t)))
                     (span (fst pe) (snd pe) tags)
                   = (article_id c ++ z) :: l /\
                   relation_parts c = l)
      chunks (chunk_spans tags).
Proof.
  destruct (parse_labels tags) as (chunks & Hp & Hl).
  destruct (parse_spans tags) as (chunks' & Hp' & Hs).
  destruct (relation_parts_tail tags) as (chunks'' & Hp'' & Hr).
  rewrite Hp in Hp', Hp''. inversion Hp'; subst chunks'.
  inversion Hp''; subst chunks''.
  exists chunks. split; [exact Hp|].
  pose proof (Forall2_and _ _ _ _ (Forall2_and _ _ _ _ Hl Hs) Hr) as H.
  revert H. apply Forall2_impl.
  intros c [p e] (((t' & Hn' & Ht & Hid) & (_ & Hlt)) & Hrel) t x Hn Hx.
  cbn [fst snd] in *. rewrite Hn in Hn'. inversion Hn'; subst t'.
  destruct (label_of_spec t Ht) as (rest & Htext & L).
  apply lang_article_label in L. rewrite <- Hid in Htext, L.
  pose proof (article_label_stays _ L) as Hstay.
  assert (Hc : tag_content t
               = article_id c ++ str_replace (py "<br />") [] rest).
  { unfold tag_content. rewrite (single_string_text t x [SP] Hx).
    rewrite <- (single_string_text t x [] Hx), Htext.
    apply replace_keeps_front. revert Hstay. apply Forall_impl.
    intros d Hd. apply Hd. }
  destruct (first_match_extends (article_id c)
              (clean_text (str_replace (py "<br />") [] rest))
              (article_label_token _ L)) as (z & l & Hm).
  rewrite Hrel. rewrite (span_first _ _ _ _ (proj1 Hlt) Hn). cbn [flat_map].
  rewrite Hc, clean_text_keeps_front, Hm by assumption.
  cbn [app skipn]. eauto.
Qed.

End SelfLabel.

(** ** A match read again *)

Section TokenAgain.

Hypothesis JE_not_decimal : isdecimal JE = false.
Hypothesis JO_not_decimal : isdecimal JO = false.
Hypothesis HANG_not_decimal : isdecimal HANG = false.

(** X15. With the syllables of the pattern not being decimal digits, the
    extractor applied to a reference token, so to any of its own matches,
    returns just that token. *)
Theorem token_extracts_itself (w : pystr) :
  ref_token w -> get_relation_parts w = [w].
Proof.
  intros Hw. rewrite get_relation_parts_findall. unfold findall.
  pose proof (findall_extracts JE_not_decimal JO_not_decimal HANG_not_decimal
                w (S (length w)) w 0 (Nat.lt_succ_diag_r _)) as H.
  apply (extracts_functional _ _ H).
  apply (@extracts_match w [] w [] []).
  - now rewrite app_nil_r.
  - exact Hw.
  - intros j Hj. cbn in Hj. lia.
  - intros w' rest' Heq _. apply (f_equal (@length char)) in Heq.
    rewrite !length_app in Heq. cbn in Heq. lia.
  - apply extracts_none. intros j (u & r & Hu & Ht). rewrite skipn_nil in Hu.
    apply ref_token_length in Ht. destruct u; [cbn in Ht; lia | discriminate].
Qed.

End TokenAgain.

End Unicode.

(** * The tables of the interpreter *)

Lemma in_ranges_outside (rs : list (N * N)) (lo hi c : N) :
  forallb (fun r => (snd r <? lo) || (hi <? fst r))%N rs = true ->
  (lo <= c <= hi)%N -> in_ranges rs c = false.
Proof.
  intros H Hc. unfold in_ranges. induction rs as [|[a b] rs IH]; [reflexivity|].
  cbn [forallb fst snd] in H. apply andb_true_iff in H. destruct H as (H & Hrs).
  cbn [existsb fst snd]. rewrite (IH Hrs), orb_false_r.
  apply orb_true_iff in H. apply andb_false_iff.
  destruct H as [H|H]; apply N.ltb_lt in H; [right | left]; apply N.leb_gt; lia.
Qed.

(** The circled numerals are not decimal digits (their category is No). *)
Lemma py_circled_not_decimal (c : char) : circled c -> py_isdecimal c = false.
Proof. apply in_ranges_outside. vm_compute. reflexivity. Qed.

(** * Examples *)

Local Open Scope string_scope.
Local Open Scope list_scope.

(** The scenario of the specification: two chunks, the self-reference of
    the first tag is dropped and the reference of the second tag is kept. *)
Example statute_chunks :
  parse_html_by_article_sections py_isspace py_isdecimal doc_statute
  = Ok [ {| article_id := art "1";
            start_id := py "p1";
            end_id := py "p2";
            content := art "1" ++ py " Penalties." ++ [NL]
                       ++ py "Violation of " ++ art "1" ++ para "2"
                       ++ py " incurs a fine.";
            paragraph_ids := [py "p1"; py "p2"];
            relation_parts := [art "1" ++ para "2"] |};
         {| article_id := art "2";
            start_id := py "p3";
            end_id := py "unknown";
            content := art "2" ++ py " Definitions." ++ [NL] ++ py "...";
            paragraph_ids := [py "p3"; py "unknown"];
            relation_parts := [] |} ].
Proof. vm_compute. reflexivity. Qed.

Example statute_spans : chunk_spans py_isspace py_isdecimal doc_statute = [(0, 2); (2, 4)].
Proof. vm_compute. reflexivity. Qed.

Example three_refs :
  get_relation_parts py_isspace py_isdecimal text_three_refs
  = [art "1"; art "2" ++ UI :: py "3" ++ para "4"; art "1"].
Proof. vm_compute. reflexivity. Qed.

Example clean_text_sample :
  clean_text py_isspace py_isdecimal
    ([0x2460%N] ++ py " a" ++ [NL; NL] ++ py "b  " ++ [0x2473%N] ++ py " c")
  = py " a b c".
Proof. vm_compute. reflexivity. Qed.

Example bare_label_chunk :
  parse_html_by_article_sections py_isspace py_isdecimal doc_bare_label
  = Ok [ {| article_id := art "1";
            start_id := py "unknown";
            end_id := py "unknown";
            content := JE :: py "1 " ++ [JO];
            paragraph_ids := [py "unknown"];
            relation_parts := [] |} ].
Proof. vm_compute. reflexivity. Qed.

(** * The claims on the interpreter's tables *)

(** C2. In every chunk, [relation_parts] is the list of all matches of the
    reference pattern in the normalised texts of the chunk's tags, tag
    after tag and in the order found within a tag, without its first
    element.  The first element goes whatever it is: in
    [doc_split_label] it is the reference to article 2, not the label of
    the chunk. *)
Theorem relation_parts_drop_first :
  (forall (isspace isdecimal : char -> bool) (tags : list Tag),
     exists chunks,
       parse_html_by_article_sections isspace isdecimal tags = Ok chunks /\
       Forall2 (fun c pe =>
                  relation_parts c
                  = skipn 1 (flat_map
                               (fun t => get_relation_parts isspace isdecimal
                                           (clean_text isspace isdecimal
                                              (tag_content isspace t)))
                               (span (fst pe) (snd pe) tags)))
         chunks (chunk_spans isspace isdecimal tags)) /\
  (exists c,
     parse_html_by_article_sections py_isspace py_isdecimal doc_split_label = Ok [c] /\
     chunk_spans py_isspace py_isdecimal doc_split_label = [(0, 1)] /\
     article_id c = art "1" /\
     flat_map (fun t => get_relation_parts py_isspace py_isdecimal
                          (clean_text py_isspace py_isdecimal
                             (tag_content py_isspace t)))
       (span 0 1 doc_split_label) = [art "2"] /\
     relation_parts c = []).
Proof.
  split; [apply relation_parts_tail|].
  eexists. split; [vm_compute; reflexivity|].
  repeat split; vm_compute; reflexivity.
Qed.

(** * Instances *)

Lemma no_article_no_chunk_witness :
  (forall t, In t doc_no_article ->
             re_match py_isspace py_isdecimal article_start_pattern
               (get_text py_isspace [] true t) = None) /\
  parse_html_by_article_sections py_isspace py_isdecimal doc_no_article = Ok [].
Proof.
  assert (H : forall t, In t doc_no_article ->
                        re_match py_isspace py_isdecimal article_start_pattern
                          (get_text py_isspace [] true t) = None).
  { intros t [<-|[<-|[]]]; vm_compute; reflexivity. }
  split; [exact H|].
  exact (no_article_no_chunk py_isspace py_isdecimal doc_no_article H).
Defined.

Lemma circled_numerals_removed_witness :
  (forall c, circled c -> py_isdecimal c = false) /\
  ~ circled 0x61%N /\ ~ circled JE.
Proof.
  split; [exact py_circled_not_decimal|]. split.
  - apply (proj1 (circled_numerals_removed py_isspace py_isdecimal)
             ([0x2460%N] ++ py "a")).
    vm_compute. now left.
  - apply (proj2 (circled_numerals_removed py_isspace py_isdecimal)
             py_circled_not_decimal text_three_refs (art "1")).
    + vm_compute. now left.
    + now left.
Defined.

Lemma get_relation_parts_extracts_witness :
  (py_isdecimal JE = false /\ py_isdecimal JO = false /\ py_isdecimal HANG = false) /\
  extracts py_isdecimal text_three_refs
    [art "1"; art "2" ++ UI :: py "3" ++ para "4"; art "1"].
Proof.
  split; [repeat split; vm_compute; reflexivity|].
  apply (proj2 (get_relation_parts_extracts py_isspace py_isdecimal
                  eq_refl eq_refl eq_refl text_three_refs _)).
  vm_compute. reflexivity.
Defined.

(** * The further properties on the interpreter's tables *)

Lemma in_ranges_inside (rs : list (N * N)) (c : N) :
  in_ranges rs c = true -> exists r, In r rs /\ (fst r <= c <= snd r)%N.
Proof.
  unfold in_ranges. intros H. apply existsb_exists in H.
  destruct H as (r & Hr & H). apply andb_true_iff in H.
  exists r. split; [exact Hr|]. split; apply N.leb_le; tauto.
Qed.

Lemma in_ranges_disjoint (rs1 rs2 : list (N * N)) (c : N) :
  forallb (fun r1 => forallb (fun r2 => (snd r2 <? fst r1) || (snd r1 <? fst r2))%N rs2)
    rs1 = true ->
  in_ranges rs1 c = true -> in_ranges rs2 c = false.
Proof.
  intros H H1. apply in_ranges_inside in H1. destruct H1 as (r1 & Hr1 & Hc1).
  destruct (in_ranges rs2 c) eqn:H2; [exfalso | reflexivity].
  apply in_ranges_inside in H2. destruct H2 as (r2 & Hr2 & Hc2).
  rewrite forallb_forall in H. specialize (H r1 Hr1).
  rewrite forallb_forall in H. specialize (H r2 Hr2).
  apply orb_true_iff in H. destruct H as [H|H]; apply N.ltb_lt in H; lia.
Qed.

(** A decimal digit is not white space, not a circled numeral, not a
    newline and not ["<"]. *)
Lemma py_digits_stay (c : char) :
  py_isdecimal c = true -> stays_in_front py_isspace c.
Proof.
  intros H. unfold stays_in_front.
  split; [|split; [|split]].
  - exact (in_ranges_disjoint decimal_ranges whitespace_ranges c eq_refl H).
  - destruct (is_circled c) eqn:E; [|reflexivity].
    apply (proj1 (is_circled_spec py_isspace py_isdecimal c)) in E.
    rewrite (py_circled_not_decimal c E) in H. discriminate.
  - intros ->. vm_compute in H. discriminate.
  - intros ->. vm_compute in H. discriminate.
Qed.

Lemma no_syllable_no_reference_witness :
  (~ In JE (py "no reference here") \/ ~ In JO (py "no reference here")) /\
  get_relation_parts py_isspace py_isdecimal (py "no reference here") = [].
Proof.
  assert (H : ~ In JE (py "no reference here") \/ ~ In JO (py "no reference here")).
  { left. vm_compute. intuition discriminate. }
  split; [exact H|].
  exact (no_syllable_no_reference py_isspace py_isdecimal _ H).
Defined.

Lemma preamble_ignored_witness :
  (forall t, In t doc_no_article -> is_article_start py_isspace py_isdecimal t = false) /\
  parse_html_by_article_sections py_isspace py_isdecimal (doc_no_article ++ doc_statute)
  = parse_html_by_article_sections py_isspace py_isdecimal doc_statute.
Proof.
  assert (H : forall t, In t doc_no_article ->
                        is_article_start py_isspace py_isdecimal t = false).
  { intros t [<-|[<-|[]]]; vm_compute; reflexivity. }
  split; [exact H|].
  exact (preamble_ignored py_isspace py_isdecimal doc_no_article doc_statute H).
Defined.

Lemma parse_app_witness :
  is_article_start py_isspace py_isdecimal
    (mk_tag [art "2" ++ py " Definitions."] (Some (py "p3"))) = true /\
  exists ca cb,
    parse_html_by_article_sections py_isspace py_isdecimal doc_bare_label = Ok ca /\
    parse_html_by_article_sections py_isspace py_isdecimal
      (mk_tag [art "2" ++ py " Definitions."] (Some (py "p3")) :: [mk_tag [py "..."] None])
    = Ok cb /\
    parse_html_by_article_sections py_isspace py_isdecimal
      (doc_bare_label
       ++ mk_tag [art "2" ++ py " Definitions."] (Some (py "p3")) :: [mk_tag [py "..."] None])
    = Ok (ca ++ cb).
Proof.
  assert (H : is_article_start py_isspace py_isdecimal
                (mk_tag [art "2" ++ py " Definitions."] (Some (py "p3"))) = true)
    by (vm_compute; reflexivity).
  split; [exact H|].
  exact (parse_app py_isspace py_isdecimal doc_bare_label [mk_tag [py "..."] None] _ H).
Defined.


Lemma dropped_match_is_label_witness :
  (py_isdecimal JE = false /\ py_isdecimal JO = false /\ py_isdecimal HANG = false /\
   py_isspace JE = false /\ py_isspace JO = false /\ py_isspace UI = false /\
   forall c, py_isdecimal c = true -> stays_in_front py_isspace c) /\
  exists chunks,
    parse_html_by_article_sections py_isspace py_isdecimal doc_statute = Ok chunks /\
    Forall2 (fun c pe =>
               forall t x,
                 nth_error doc_statute (fst pe) = Some t ->
                 tag_strings t = [x] ->
                 exists z l,
                   flat_map (fun t => get_relation_parts py_isspace py_isdecimal
                                        (clean_text py_isspace py_isdecimal
                                           (tag_content py_isspace t)))
                     (span (fst pe) (snd pe) doc_statute)
                   = (article_id c ++ z) :: l /\
                   relation_parts c = l)
      chunks (chunk_spans py_isspace py_isdecimal doc_statute).
Proof.
  split.
  - repeat (split; [vm_compute; reflexivity|]). exact py_digits_stay.
  - exact (dropped_match_is_label py_isspace py_isdecimal
             eq_refl eq_refl eq_refl eq_refl eq_refl eq_refl py_digits_stay doc_statute).
Defined.

Lemma token_extracts_itself_witness :
  (py_isdecimal JE = false /\ py_isdecimal JO = false /\ py_isdecimal HANG = false) /\
  ref_token py_isdecimal (art "2" ++ UI :: py "3" ++ para "4") /\
  get_relation_parts py_isspace py_isdecimal (art "2" ++ UI :: py "3" ++ para "4")
  = [art "2" ++ UI :: py "3" ++ para "4"].
Proof.
  assert (Hw : ref_token py_isdecimal (art "2" ++ UI :: py "3" ++ para "4")).
  { exists (py "2"), (UI :: py "3"), (para "4").
    split; [split; [discriminate | repeat constructor]|].
    split; [right; exists (py "3"); split; [split; [discriminate | repeat constructor] | reflexivity]|].
    split; [right; exists (py "4"); split; [split; [discriminate | repeat constructor] | reflexivity]|].
    reflexivity. }
  split; [repeat split; vm_compute; reflexivity|]. split; [exact Hw|].
  exact (token_extracts_itself py_isspace py_isdecimal eq_refl eq_refl eq_refl _ Hw).
Defined.
